(** * StatEnv: the request pipeline of the edge API proxy (src/index.js)

    A shallow embedding of the Worker's request handler and of the helpers
    it calls, followed by the properties of the rate limiter, the origin
    check, the upstream request construction, the cache contract and the
    error responses.

    Conventions of the embedding.
    - Numbers that the Worker manipulates (timestamps in milliseconds,
      counters, HTTP statuses, cache lifetimes) are integers and are
      modelled in [Z].
    - The rate-limit [Map], [env] and the header collections are finite
      maps ([gmap]).  The configuration is a parameter of the embedding,
      [APP_CONFIG] being the one of the source; [env[apiConfig.secret]] is
      the lookup of the binding of that name, the name of a secret being
      taken not to be the name of a member of [Object.prototype].
    - A JavaScript object whose properties are printed by [JSON.stringify]
      or listed by [Object.keys] (the parsed client body, the body sent
      upstream, the error payloads, the configuration) is the list of its
      own properties in the order of their creation; the text that
      [JSON.stringify] prints is a function of that list and is kept as the
      value itself.  A configuration object is the list of its own
      properties in the order in which [Object.keys] lists them.  A property
      read of a parsed body is modelled on its own properties (an inherited
      member is not printed by [JSON.stringify]); a property read of a
      configuration object also finds the members of [Object.prototype]
      ([object_prototype]).
    - Everything the handler reads from outside (the clock, [Math.random],
      the Cache API, the upstream server) is an explicit input gathered in
      the record [World].  The constructors [URL] and [Response] are taken
      not to throw. *)

From stdpp Require Import gmap strings list fin_maps pretty.
From Stdlib Require Import Ascii QArith.

Set Warnings "-register-all".
Local Open Scope Z_scope.

(* ===================================================================== *)
(** ** Rate limiting (lines 9-19 and 309-366) *)
(* ===================================================================== *)

Record RateLimitConfig := {
  maxRequests : Z;
  windowMs : Z;
  perIP : bool;
  perApp : bool
}.

Definition RATE_LIMIT : RateLimitConfig :=
  {| maxRequests := 100; windowMs := 60000; perIP := true; perApp := false |}.

(** A value of the [rateLimitStore] map. *)
Record RateLimitData := { count : Z; resetAt : Z }.

(** The object returned by [checkRateLimit]. *)
Record RateLimitResult := { allowed : bool; remaining : Z; resetAtOf : Z }.

(** The loop of lines 315-319: every entry with [now > v.resetAt] is
    deleted.  Deleting from a [Map] while iterating over it still visits
    every other entry, so the loop is a filter. *)
Definition cleanup (now : Z) (store : gmap string RateLimitData)
  : gmap string RateLimitData :=
  filter (λ kv : string * RateLimitData, ¬ (now > resetAt kv.2)) store.

(** [checkRateLimit identifier], with the two values it reads from the
    outside made explicit: [now] is [Date.now()] and [rand] is the draw of
    [Math.random()].  The store is threaded through. *)
Definition checkRateLimit (identifier : string) (now : Z) (rand : Q)
    (rateLimitStore : gmap string RateLimitData)
  : RateLimitResult * gmap string RateLimitData :=
  let key := identifier in
  let rateLimitStore :=
    if Qlt_le_dec rand (1 # 100) then cleanup now rateLimitStore
    else rateLimitStore in
  match rateLimitStore !! key with
  | None =>
      ({| allowed := true;
          remaining := maxRequests RATE_LIMIT - 1;
          resetAtOf := now + windowMs RATE_LIMIT |},
       <[key := {| count := 1; resetAt := now + windowMs RATE_LIMIT |}]>
         rateLimitStore)
  | Some data =>
      if decide (now > resetAt data) then
        ({| allowed := true;
            remaining := maxRequests RATE_LIMIT - 1;
            resetAtOf := now + windowMs RATE_LIMIT |},
         <[key := {| count := 1; resetAt := now + windowMs RATE_LIMIT |}]>
           rateLimitStore)
      else if decide (count data >= maxRequests RATE_LIMIT) then
        ({| allowed := false; remaining := 0; resetAtOf := resetAt data |},
         rateLimitStore)
      else
        let data' := {| count := count data + 1; resetAt := resetAt data |} in
        ({| allowed := true;
            remaining := maxRequests RATE_LIMIT - count data';
            resetAtOf := resetAt data' |},
         <[key := data']> rateLimitStore)
  end.

(** A sequence of calls for one identifier: each call brings its own clock
    reading and random draw.  The results are returned in call order. *)
Fixpoint checkMany (identifier : string) (calls : list (Z * Q))
    (store : gmap string RateLimitData)
  : list RateLimitResult * gmap string RateLimitData :=
  match calls with
  | [] => ([], store)
  | (now, rand) :: calls' =>
      let '(r, store') := checkRateLimit identifier now rand store in
      let '(rs, store'') := checkMany identifier calls' store' in
      (r :: rs, store'')
  end.

(** Every counter in the store is at most [maxRequests]. *)
Definition counts_bounded (store : gmap string RateLimitData) : Prop :=
  ∀ k d, store !! k = Some d → count d <= maxRequests RATE_LIMIT.

(* ===================================================================== *)
(** ** Values and helpers of the runtime *)
(* ===================================================================== *)

(** JSON values, as produced by [request.json()] and consumed by
    [JSON.stringify].  An object is the list of its own properties in the
    order in which they were created, each name once. *)
Inductive json :=
| JNull
| JBool (b : bool)
| JNum (n : Z)
| JStr (s : string)
| JArr (items : list json)
| JObj (fields : list (string * json)).

(** [v || d] for a value that is a string or [null]: the empty string and
    [null] are falsy. *)
Definition or_else (v : option string) (d : string) : string :=
  match v with
  | Some s => if decide (s = "") then d else s
  | None => d
  end.

(** [s.startsWith(searchString)]. *)
Definition startsWith (s searchString : string) : bool :=
  String.prefix searchString s.

(** [s.split(sep)] for a one-character separator. *)
Fixpoint split (sep : Ascii.ascii) (s : string) : list string :=
  match s with
  | EmptyString => [EmptyString]
  | String c s' =>
      if Ascii.eqb c sep then EmptyString :: split sep s'
      else match split sep s' with
           | [] => [String c EmptyString]
           | piece :: pieces => String c piece :: pieces
           end
  end.

(** A parsed URL.  [searchParams] is the list of name-value pairs of the
    query string, in order. *)
Record URL := {
  endpoint : string;
  pathname : string;
  searchParams : list (string * string)
}.

(** [URLSearchParams.get]: the value of the first pair with that name. *)
Fixpoint searchParams_get (name : string) (query : list (string * string))
  : option string :=
  match query with
  | [] => None
  | (n, v) :: query' =>
      if decide (n = name) then Some v else searchParams_get name query'
  end.

(** [URLSearchParams.set]: the first pair with that name takes the value and
    the other pairs with that name are removed; without such a pair, one is
    appended. *)
Fixpoint searchParams_set (name value : string)
    (query : list (string * string)) : list (string * string) :=
  match query with
  | [] => [(name, value)]
  | (n, v) :: query' =>
      if decide (n = name)
      then (name, value) :: filter (λ nv : string * string, nv.1 ≠ name) query'
      else (n, v) :: searchParams_set name value query'
  end.

(** [obj[name]] on an object given by its own properties. *)
Fixpoint property {A : Type} (name : string) (obj : list (string * A))
  : option A :=
  match obj with
  | [] => None
  | (k, v) :: obj' => if decide (k = name) then Some v else property name obj'
  end.

(** [obj[name] = value]: an existing property keeps its place, a new one
    comes last. *)
Fixpoint property_set {A : Type} (name : string) (value : A)
    (obj : list (string * A)) : list (string * A) :=
  match obj with
  | [] => [(name, value)]
  | (k, v) :: obj' =>
      if decide (k = name) then (name, value) :: obj'
      else (k, v) :: property_set name value obj'
  end.

(** [Object.keys(obj)]. *)
Definition keys {A : Type} (obj : list (string * A)) : list string := obj.*1.

(** The properties of a value that the [in] operator and a property read
    can see and that [JSON.stringify] can print: the fields of an object;
    the indices and the length of an array.  A primitive has none, and
    [in] throws on it. *)
Definition own_properties (v : json) : option (list (string * json)) :=
  match v with
  | JObj fields => Some fields
  | JArr items =>
      Some (imap (λ i x, (pretty i, x)) items
            ++ [("length", JNum (Z.of_nat (length items)))])
  | _ => None
  end.

(** How the engine prints the right operand in the message of the
    [TypeError] of [in]. *)
Definition show_primitive (v : json) : string :=
  match v with
  | JNull => "null"
  | JBool true => "true"
  | JBool false => "false"
  | JNum n => pretty n
  | JStr s => s
  | _ => "#<Object>"
  end.

(** A thrown error. *)
Record JsError := { error_name : string; error_message : string }.

(* ===================================================================== *)
(** ** Configuration (lines 21-53) *)
(* ===================================================================== *)

(** One API of an app.  [api_url] is the configured address as
    [new URL(apiConfig.url)] parses it.  [params], [bodyFields] and [cache]
    are optional in the configuration. *)
Record ApiConfig := {
  api_url : URL;
  secret : string;
  api_method : string;
  params : option (list string);
  bodyFields : option (list string);
  cache : option Z
}.

Record AppConfig := {
  origins : list string;
  apis : list (string * ApiConfig)
}.

Definition APP_CONFIG : list (string * AppConfig) :=
  [ ("myblog",
     {| origins := ["http://localhost:5500"];
        apis :=
          [ ("weather",
             {| api_url := {| endpoint := "https://api.weatherapi.com";
                              pathname := "/v1/current.json";
                              searchParams := [] |};
                secret := "MYBLOG_WEATHER_KEY";
                api_method := "GET";
                params := Some ["q"];
                bodyFields := None;
                cache := Some 300 |});
            ("analytics",
             {| api_url := {| endpoint := "https://api.example.com";
                              pathname := "/track";
                              searchParams := [] |};
                secret := "MYBLOG_ANALYTICS_KEY";
                api_method := "POST";
                params := None;
                bodyFields := Some ["event"; "data"];
                cache := None |}) ] |});
    ("myshop",
     {| origins := ["https://shop.com"; "http://localhost:8080"];
        apis :=
          [ ("stripe",
             {| api_url := {| endpoint := "https://api.stripe.com";
                              pathname := "/v1/payment_intents";
                              searchParams := [] |};
                secret := "MYSHOP_STRIPE_KEY";
                api_method := "POST";
                params := None;
                bodyFields := Some ["amount"; "currency"];
                cache := None |}) ] |}) ].

(** Truthiness of [apiConfig.cache]: present and not zero. *)
Definition cache_enabled (apiConfig : ApiConfig) : bool :=
  match cache apiConfig with
  | Some ttl => bool_decide (ttl ≠ 0)
  | None => false
  end.

(* ===================================================================== *)
(** ** Requests, responses and the outside world *)
(* ===================================================================== *)

(** The inbound request.  [url] is [new URL(request.url)]; [json_body] is
    what [request.json()] resolves to, [None] when it rejects. *)
Record Request := {
  method : string;
  url : URL;
  headers : gmap string string;
  json_body : option json
}.

(** A response body: none, a text, or the text [JSON.stringify(data)]. *)
Inductive Body :=
| NoBody
| TextBody (text : string)
| JsonBody (data : json).

Record Response := {
  status : Z;
  response_headers : gmap string string;
  body : Body
}.

(** The call [fetch(proxyUrl.toString(), proxyOptions)]. *)
Record ProxyRequest := {
  proxy_url : URL;
  proxy_method : string;
  proxy_headers : gmap string string;
  proxy_body : option json
}.

(** What the upstream call gives back: a response, read with [text()], or
    a rejection with the name and message of the error. *)
Record ApiResponse := {
  api_status : Z;
  api_headers : gmap string string;
  api_text : string
}.

Inductive FetchResult :=
| Resolved (apiResponse : ApiResponse)
| Rejected (fetchError : JsError).

(** [apiResponse.ok]. *)
Definition ok (apiResponse : ApiResponse) : bool :=
  bool_decide (200 <= api_status apiResponse <= 299).

(** What one invocation of the handler reads from outside: the clock inside
    [checkRateLimit], the clock read again on the 429 path, the random
    draw, the answer of [caches.default.match], and the behaviour of the
    upstream server (a rejection named [AbortError] is what the 10 second
    timer produces). *)
Record World := {
  clock : Z;
  clock_retry : Z;
  random : Q;
  cache_match : Request → option Response;
  upstream : ProxyRequest → FetchResult
}.

(** The return statement by which the handler left. *)
Inductive Exit :=
| Preflight
| InvalidRoute
| UnknownApp
| UnknownApi
| Forbidden
| RateLimited
| CacheHit
| ConfigurationError
| Forwarded
| GatewayTimeout
| BadGateway
| InternalError.

(** Everything one invocation does: the response, the rate-limit store it
    leaves, the upstream call it made if any, the response it handed to
    [cache.put] if any, and where it returned. *)
Record Outcome := {
  response : Response;
  store_after : gmap string RateLimitData;
  sent : option ProxyRequest;
  stored : option (Request * Response);
  exit : Exit
}.

(* ===================================================================== *)
(** ** Response helpers (lines 265-303) *)
(* ===================================================================== *)

(** [response.headers.set(name, value)]. *)
Definition headers_set (name value : string) (r : Response) : Response :=
  {| status := status r;
     response_headers := <[name := value]> (response_headers r);
     body := body r |}.

Definition handleCORS (request : Request) : Response :=
  let origin := or_else (headers request !! "Origin") "*" in
  {| status := 204;
     response_headers :=
       list_to_map
         [ ("Access-Control-Allow-Origin", origin);
           ("Access-Control-Allow-Methods", "GET, POST, OPTIONS");
           ("Access-Control-Allow-Headers", "Content-Type");
           ("Access-Control-Max-Age", "86400") ];
     body := NoBody |}.

Definition addCORSHeaders (response : Response) (origin : string)
  : Response :=
  let newResponse := response in
  let newResponse :=
    headers_set "Access-Control-Allow-Origin" (or_else (Some origin) "*")
      newResponse in
  let newResponse :=
    headers_set "Access-Control-Allow-Methods" "GET, POST, OPTIONS"
      newResponse in
  newResponse.

Definition jsonResponse (data : json) (status : Z) : Response :=
  {| status := status;
     response_headers :=
       list_to_map
         [ ("Content-Type", "application/json");
           ("Access-Control-Allow-Origin", "*") ];
     body := JsonBody data |}.

(* ===================================================================== *)
(** ** The request handler (lines 55-263) *)
(* ===================================================================== *)

(** An outcome that made no upstream call and stored nothing. *)
Definition leave (exit : Exit) (response : Response)
    (store : gmap string RateLimitData) : Outcome :=
  {| response := response; store_after := store; sent := None;
     stored := None; exit := exit |}.

(** [Math.ceil(a / 1000)] for an integer [a]. *)
Definition ceil_div_1000 (a : Z) : Z := - ((- a) / 1000).

(** The response of lines 113-129. *)
Definition tooManyRequests (rateLimit : RateLimitResult) (origin : string)
    (now : Z) : Response :=
  let resetIn := ceil_div_1000 (resetAtOf rateLimit - now) in
  {| status := 429;
     response_headers :=
       list_to_map
         [ ("Content-Type", "application/json");
           ("Retry-After", pretty resetIn);
           ("X-RateLimit-Limit", pretty (maxRequests RATE_LIMIT));
           ("X-RateLimit-Remaining", "0");
           ("X-RateLimit-Reset", pretty (resetAtOf rateLimit));
           ("Access-Control-Allow-Origin", or_else (Some origin) "*") ];
     body :=
       JsonBody
         (JObj
            [ ("error", JStr "Too Many Requests");
              ("message",
               JStr ("Rate limit exceeded. Try again in " +:+ pretty resetIn
                     +:+ " seconds."));
              ("retryAfter", JNum resetIn) ]) |}.

(** The response of lines 141-146, from the cached one. *)
Definition cacheHit (cachedResponse : Response) (rateLimit : RateLimitResult)
    (origin : string) : Response :=
  let response := cachedResponse in
  let response := headers_set "X-Cache" "HIT" response in
  let response :=
    headers_set "X-RateLimit-Limit" (pretty (maxRequests RATE_LIMIT))
      response in
  let response :=
    headers_set "X-RateLimit-Remaining" (pretty (remaining rateLimit))
      response in
  let response :=
    headers_set "X-RateLimit-Reset" (pretty (resetAtOf rateLimit))
      response in
  addCORSHeaders response origin.

(** The origin check of lines 95-100. *)
Definition isAllowed (appConfig : AppConfig) (origin referer : string)
  : bool :=
  existsb (λ allowed, startsWith origin allowed || startsWith referer allowed)
    (origins appConfig).

(** What the stages before secret resolution hand on when none of them
    returned: the resolved route, the origin, the rate-limit result and the
    store that [checkRateLimit] left. *)
Record Pass := {
  appName : string;
  apiName : string;
  apiConfig : ApiConfig;
  origin : string;
  rateLimit : RateLimitResult;
  store : gmap string RateLimitData
}.

(** Lines 63-149: route resolution, origin check, rate limiting and cache
    lookup, for a route that does not stop at a member of
    [Object.prototype] (see [prototypeRoute] below for the others): the
    property reads of lines 77 and 86 find an own property or nothing.
    Each stage either returns a response or passes on. *)
Definition validate (config : list (string * AppConfig)) (request : Request)
    (w : World) (rateLimitStore : gmap string RateLimitData)
  : Outcome + Pass :=
  let url := url request in
  let pathParts :=
    filter (λ part, part ≠ EmptyString) (split "/"%char (pathname url)) in
  match pathParts with
  | appName :: apiName :: _ =>
      match property appName config with
      | None =>
          inl (leave UnknownApp
                 (jsonResponse
                    (JObj [ ("error", JStr "Unknown app");
                              ("availableApps", JArr (JStr <$> keys config)) ])
                    404)
                 rateLimitStore)
      | Some appConfig =>
          match property apiName (apis appConfig) with
          | None =>
              inl (leave UnknownApi
                     (jsonResponse
                        (JObj
                           [ ("error", JStr "Unknown API endpoint");
                             ("availableApis",
                              JArr (JStr <$> keys (apis appConfig))) ])
                        404)
                     rateLimitStore)
          | Some apiConfig =>
              let origin := or_else (headers request !! "Origin") "" in
              let referer := or_else (headers request !! "Referer") "" in
              if negb (isAllowed appConfig origin referer) then
                inl (leave Forbidden
                       (jsonResponse (JObj [ ("error", JStr "Forbidden") ])
                          403)
                       rateLimitStore)
              else
                let clientIP :=
                  or_else (headers request !! "CF-Connecting-IP") "unknown" in
                let rateLimitKey :=
                  if perIP RATE_LIMIT then clientIP else appName in
                let '(rateLimit, rateLimitStore) :=
                  checkRateLimit rateLimitKey (clock w) (random w)
                    rateLimitStore in
                if negb (allowed rateLimit) then
                  inl (leave RateLimited
                         (tooManyRequests rateLimit origin (clock_retry w))
                         rateLimitStore)
                else
                  let pass :=
                    {| appName := appName; apiName := apiName;
                       apiConfig := apiConfig; origin := origin;
                       rateLimit := rateLimit; store := rateLimitStore |} in
                  if cache_enabled apiConfig then
                    match cache_match w request with
                    | Some cachedResponse =>
                        inl (leave CacheHit
                               (cacheHit cachedResponse rateLimit origin)
                               rateLimitStore)
                    | None => inr pass
                    end
                  else inr pass
          end
      end
  | _ =>
      inl (leave InvalidRoute
             (jsonResponse
                (JObj
                   [ ("error", JStr "Invalid route. Use /{appName}/{apiName}");
                     ("example", JStr "/myblog/weather?q=London") ])
                404)
             rateLimitStore)
  end.

(** The loop of lines 167-172: a listed parameter is copied when the client
    sent it with a value that is not empty. *)
Definition copyParams (allowedParams : list string)
    (clientQuery query : list (string * string)) : list (string * string) :=
  foldl
    (λ query param,
       match searchParams_get param clientQuery with
       | Some value =>
           if decide (value = "") then query
           else searchParams_set param value query
       | None => query
       end)
    query allowedParams.

(** Lines 159-173: the address of the upstream call. *)
Definition proxyUrlOf (apiConfig : ApiConfig) (secretValue : string)
    (url : URL) : URL :=
  let proxyUrl := api_url apiConfig in
  if decide (api_method apiConfig = "GET") then
    match params apiConfig with
    | Some allowedParams =>
        let query :=
          searchParams_set "key" secretValue (searchParams proxyUrl) in
        let query := copyParams allowedParams (searchParams url) query in
        {| endpoint := endpoint proxyUrl; pathname := pathname proxyUrl;
           searchParams := query |}
    | None => proxyUrl
    end
  else proxyUrl.

(** The loop of lines 194-198.  [field in clientBody] throws a [TypeError]
    when [clientBody] is not an object. *)
Fixpoint copyFields (fields : list string) (clientBody : json)
    (allowedBody : list (string * json))
  : JsError + list (string * json) :=
  match fields with
  | [] => inr allowedBody
  | field :: fields' =>
      match own_properties clientBody with
      | None =>
          inl {| error_name := "TypeError";
                 error_message :=
                   "Cannot use 'in' operator to search for '" +:+ field
                   +:+ "' in " +:+ show_primitive clientBody |}
      | Some properties =>
          match property field properties with
          | Some value =>
              copyFields fields' clientBody
                (property_set field value allowedBody)
          | None => copyFields fields' clientBody allowedBody
          end
      end
  end.

(** [await request.json().catch(() => ({}))]. *)
Definition clientBodyOf (request : Request) : json :=
  default (JObj []) (json_body request).

(** Lines 189-203: the body of the upstream call, if there is one. *)
Definition proxyBodyOf (apiConfig : ApiConfig) (secretValue : string)
    (request : Request) : JsError + option json :=
  if decide (api_method apiConfig = "POST") then
    match bodyFields apiConfig with
    | Some allowedFields =>
        let clientBody := clientBodyOf request in
        match copyFields allowedFields clientBody [] with
        | inl error => inl error
        | inr allowedBody =>
            let allowedBody :=
              property_set "key" (JStr secretValue) allowedBody in
            inr (Some (JObj allowedBody))
        end
    | None => inr None
    end
  else inr None.

(** Lines 158-203: the upstream call that line 207 makes, or the error
    thrown while it is built. *)
Definition proxyRequestOf (apiConfig : ApiConfig) (secretValue : string)
    (request : Request) : JsError + ProxyRequest :=
  let proxyUrl := proxyUrlOf apiConfig secretValue (url request) in
  match proxyBodyOf apiConfig secretValue request with
  | inl error => inl error
  | inr proxyBody =>
      inr {| proxy_url := proxyUrl;
             proxy_method := api_method apiConfig;
             proxy_headers :=
               list_to_map [ ("Content-Type", "application/json");
                             ("User-Agent", "StatEnv-Proxy/1.0") ];
             proxy_body := proxyBody |}
  end.

(** The response of lines 212-224, before the CORS headers are added. *)
Definition proxied (pass : Pass) (apiResponse : ApiResponse) : Response :=
  {| status := api_status apiResponse;
     response_headers :=
       list_to_map
         [ ("Content-Type",
            or_else (api_headers apiResponse !! "Content-Type")
              "application/json");
           ("Cache-Control",
            if cache_enabled (apiConfig pass)
            then "public, max-age="
                 +:+ pretty (default 0 (cache (apiConfig pass)))
            else "no-cache");
           ("X-StatEnv-App", appName pass);
           ("X-StatEnv-API", apiName pass);
           ("X-RateLimit-Limit", pretty (maxRequests RATE_LIMIT));
           ("X-RateLimit-Remaining", pretty (remaining (rateLimit pass)));
           ("X-RateLimit-Reset", pretty (resetAtOf (rateLimit pass)));
           ("X-Cache", "MISS") ];
     body := TextBody (api_text apiResponse) |}.

(** Lines 151-261: secret resolution, the upstream call, the cache write and
    the translation of failures.  An error thrown while the request is
    built reaches the outer [catch]; a rejection of the call reaches the
    inner one. *)
Definition forward (pass : Pass) (request : Request)
    (env : gmap string string) (w : World) : Outcome :=
  let apiConfig := apiConfig pass in
  match env !! secret apiConfig with
  | Some secretValue =>
      if decide (secretValue = "") then
        leave ConfigurationError
          (jsonResponse (JObj [ ("error", JStr "Configuration error") ]) 500)
          (store pass)
      else
        match proxyRequestOf apiConfig secretValue request with
        | inl error =>
            leave InternalError
              (jsonResponse
                 (JObj [ ("error", JStr "Internal server error");
                           ("message", JStr (error_message error)) ])
                 500)
              (store pass)
        | inr proxyRequest =>
            match upstream w proxyRequest with
            | Resolved apiResponse =>
                let response := proxied pass apiResponse in
                {| response := addCORSHeaders response (origin pass);
                   store_after := store pass;
                   sent := Some proxyRequest;
                   stored :=
                     if cache_enabled apiConfig && ok apiResponse
                     then Some (request, response) else None;
                   exit := Forwarded |}
            | Rejected fetchError =>
                if decide (error_name fetchError = "AbortError") then
                  {| response :=
                       jsonResponse
                         (JObj
                            [ ("error", JStr "Gateway Timeout");
                              ("message",
                               JStr "External API took too long to respond") ])
                         504;
                     store_after := store pass;
                     sent := Some proxyRequest;
                     stored := None;
                     exit := GatewayTimeout |}
                else
                  {| response :=
                       jsonResponse
                         (JObj
                            [ ("error", JStr "Bad Gateway");
                              ("message",
                               JStr "Failed to reach external API") ])
                         502;
                     store_after := store pass;
                     sent := Some proxyRequest;
                     stored := None;
                     exit := BadGateway |}
            end
        end
  | None =>
      leave ConfigurationError
        (jsonResponse (JObj [ ("error", JStr "Configuration error") ]) 500)
        (store pass)
  end.

(** The names of the members of [Object.prototype].  A property read
    [obj[name]] on an object that has no own property of that name finds
    the member of that name, a function or, for [__proto__], the prototype
    itself: a truthy value that has none of the properties of a
    configuration. *)
Definition object_prototype : list string :=
  [ "constructor"; "__defineGetter__"; "__defineSetter__"; "hasOwnProperty";
    "__lookupGetter__"; "__lookupSetter__"; "isPrototypeOf";
    "propertyIsEnumerable"; "toString"; "valueOf"; "__proto__";
    "toLocaleString" ].

(** The [TypeError] of [new URL(undefined)].  The text of the message is
    the engine's, here the one of the Workers runtime; no property below
    depends on it. *)
Definition invalidUrl : JsError :=
  {| error_name := "TypeError"; error_message := "Invalid URL string." |}.

(** The [TypeError] of reading the property [name] of [undefined].  The
    text of the message is the engine's; no property below depends on
    it. *)
Definition undefinedRead (name : string) : JsError :=
  {| error_name := "TypeError";
     error_message :=
       "Cannot read properties of undefined (reading '" +:+ name +:+ "')" |}.

(** Lines 63-261 for a route that stops at a member of [Object.prototype]:
    [APP_CONFIG[appName]] (line 77) or [appConfig.apis[apiName]] (line 86)
    finds no own property but an inherited member.  [None] for every other
    route.
    - As an app, the member passes line 78; its [apis] is undefined, so
      line 86 throws and the outer [catch] answers.
    - As an API, the member passes line 87.  The origin check and the rate
      limiter run as for a configured API.  Its [cache] is undefined: no
      cache lookup.  Its [secret] is undefined: line 152 reads
      [env[undefined]], the binding named [undefined].  Its [url] is undefined: line 159 throws and the
      outer [catch] answers. *)
Definition prototypeRoute (config : list (string * AppConfig))
    (request : Request) (env : gmap string string) (w : World)
    (rateLimitStore : gmap string RateLimitData) : option Outcome :=
  let url := url request in
  let pathParts :=
    filter (λ part, part ≠ EmptyString) (split "/"%char (pathname url)) in
  match pathParts with
  | appName :: apiName :: _ =>
      match property appName config with
      | None =>
          if decide (appName ∈ object_prototype) then
            Some (leave InternalError
                    (jsonResponse
                       (JObj [ ("error", JStr "Internal server error");
                               ("message",
                                JStr (error_message (undefinedRead apiName))) ])
                       500)
                    rateLimitStore)
          else None
      | Some appConfig =>
          match property apiName (apis appConfig) with
          | Some _ => None
          | None =>
              if decide (apiName ∈ object_prototype) then
                let origin := or_else (headers request !! "Origin") "" in
                let referer := or_else (headers request !! "Referer") "" in
                if negb (isAllowed appConfig origin referer) then
                  Some (leave Forbidden
                          (jsonResponse (JObj [ ("error", JStr "Forbidden") ])
                             403)
                          rateLimitStore)
                else
                  let clientIP :=
                    or_else (headers request !! "CF-Connecting-IP")
                      "unknown" in
                  let rateLimitKey :=
                    if perIP RATE_LIMIT then clientIP else appName in
                  let '(rateLimit, rateLimitStore) :=
                    checkRateLimit rateLimitKey (clock w) (random w)
                      rateLimitStore in
                  if negb (allowed rateLimit) then
                    Some (leave RateLimited
                            (tooManyRequests rateLimit origin (clock_retry w))
                            rateLimitStore)
                  else
                    match env !! "undefined" with
                    | Some secretValue =>
                        if decide (secretValue = "") then
                          Some (leave ConfigurationError
                                  (jsonResponse
                                     (JObj [ ("error",
                                              JStr "Configuration error") ])
                                     500)
                                  rateLimitStore)
                        else
                          Some (leave InternalError
                                  (jsonResponse
                                     (JObj
                                        [ ("error",
                                           JStr "Internal server error");
                                          ("message",
                                           JStr (error_message invalidUrl)) ])
                                     500)
                                  rateLimitStore)
                    | None =>
                        Some (leave ConfigurationError
                                (jsonResponse
                                   (JObj [ ("error",
                                            JStr "Configuration error") ])
                                   500)
                                rateLimitStore)
                    end
              else None
          end
      end
  | _ => None
  end.

(** The handler.  A route that stops at a member of [Object.prototype] is
    answered by [prototypeRoute]; for every other route the property reads
    of lines 77 and 86 find own properties or nothing, as [validate] has
    them. *)
Definition fetch (config : list (string * AppConfig)) (request : Request)
    (env : gmap string string) (w : World)
    (rateLimitStore : gmap string RateLimitData) : Outcome :=
  if decide (method request = "OPTIONS") then
    leave Preflight (handleCORS request) rateLimitStore
  else
    match prototypeRoute config request env w rateLimitStore with
    | Some outcome => outcome
    | None =>
        match validate config request w rateLimitStore with
        | inl outcome => outcome
        | inr pass => forward pass request env w
        end
    end.

(** The identifier under which a request is counted: [RATE_LIMIT.perIP] is
    set, so it is the client address. *)
Definition rateLimitKeyOf (request : Request) : string :=
  or_else (headers request !! "CF-Connecting-IP") "unknown".


(** The exits that answer with an error payload built by the handler. *)
Definition is_error (exit : Exit) : bool :=
  match exit with
  | Preflight | CacheHit | Forwarded => false
  | _ => true
  end.

(** The condition that [validateConfig] of the command-line tool puts on
    cache lifetimes: a lifetime that is given is not negative. *)
Definition cache_valid (config : list (string * AppConfig)) : Prop :=
  ∀ app appConfig api apiConfig ttl,
    property app config = Some appConfig →
    property api (apis appConfig) = Some apiConfig →
    cache apiConfig = Some ttl →
    0 <= ttl.


(* ===================================================================== *)
(** ** Drivers and predicates for the further properties *)
(* ===================================================================== *)

(** A sequence of calls of [checkRateLimit] for any identifiers, each with
    its clock reading and random draw. *)
Fixpoint checkTrace (calls : list (string * Z * Q))
    (store : gmap string RateLimitData)
  : list RateLimitResult * gmap string RateLimitData :=
  match calls with
  | [] => ([], store)
  | (identifier, now, rand) :: calls' =>
      let '(r, store') := checkRateLimit identifier now rand store in
      let '(rs, store'') := checkTrace calls' store' in
      (r :: rs, store'')
  end.

(** Every counter in the store is at least 1 and at most [maxRequests]. *)
Definition counts_in_range (store : gmap string RateLimitData) : Prop :=
  ∀ k d, store !! k = Some d → 1 <= count d <= maxRequests RATE_LIMIT.

(** [url.pathname.split('/').filter(Boolean)] (line 64). *)
Definition pathPartsOf (pathname : string) : list string :=
  filter (λ part, part ≠ EmptyString) (split "/"%char pathname).

(** [parts.join('/')]. *)
Fixpoint join_slash (parts : list string) : string :=
  match parts with
  | [] => EmptyString
  | [part] => part
  | part :: parts' => part +:+ String "/"%char (join_slash parts')
  end.

(** The characters of a string. *)
Fixpoint chars (s : string) : list Ascii.ascii :=
  match s with
  | EmptyString => []
  | String c s' => c :: chars s'
  end.

(* ===================================================================== *)
(** ** Configuration utilities of the command-line tool *)
(* ===================================================================== *)

(** What a property read finds on a configuration object: an own property
    or the member of [Object.prototype] of that name. *)
Inductive Member (A : Type) :=
| Own (value : A)
| Inherited (name : string).

Arguments Own {A} value.
Arguments Inherited {A} name.

(** The number that a string of decimal digits writes. *)
Fixpoint digits (s : string) (acc : N) : option N :=
  match s with
  | EmptyString => Some acc
  | String c s' =>
      let code := N_of_ascii c in
      if decide (48 ≤ code ≤ 57)%N
      then digits s' (10 * acc + (code - 48))%N
      else None
  end.

(** Whether a property name is an array index: the canonical decimal form
    of an integer below [2^32 - 1].  [Object.keys] lists the properties with
    such names first, by ascending index, and then the others in the order
    of their creation. *)
Definition arrayIndex (name : string) : option N :=
  match digits name 0 with
  | Some index =>
      if decide (pretty index = name ∧ (index < 4294967295)%N)
      then Some index else None
  | None => None
  end.

(** The place of a new property whose name is the array index [index]:
    after the array indices below it. *)
Fixpoint property_add {A : Type} (index : N) (name : string) (value : A)
    (obj : list (string * A)) : list (string * A) :=
  match obj with
  | [] => [(name, value)]
  | (k, v) :: obj' =>
      match arrayIndex k with
      | Some j =>
          if decide (j < index)%N
          then (k, v) :: property_add index name value obj'
          else (name, value) :: obj
      | None => (name, value) :: obj
      end
  end.

(** Defining the property [name] of a configuration object, which is kept
    in the order of [Object.keys]: an existing property keeps its place, a
    new array index goes among the array indices, any other new name comes
    last. *)
Definition property_define {A : Type} (name : string) (value : A)
    (obj : list (string * A)) : list (string * A) :=
  if decide (name ∈ keys obj) then property_set name value obj
  else
    match arrayIndex name with
    | Some index => property_add index name value obj
    | None => obj ++ [(name, value)]
    end.

(** The functions [listApps], [getApp], [setApp] and [removeApp] of the
    configuration module.  The configuration they receive is an object, or
    [null] ([None]) when no configuration file was found. *)
Definition listApps (config : option (list (string * AppConfig)))
  : list string :=
  match config with
  | None => []
  | Some config => keys config
  end.

(** [config[appName] || null]: an app, or an inherited member, which is
    truthy, or [null]. *)
Definition getApp (config : option (list (string * AppConfig)))
    (appName : string) : option (Member AppConfig) :=
  match config with
  | None => None
  | Some config =>
      match property appName config with
      | Some appConfig => Some (Own appConfig)
      | None =>
          if decide (appName ∈ object_prototype)
          then Some (Inherited appName) else None
      end
  end.

(** [{ ...config, [appName]: appConfig }]. *)
Definition setApp (config : option (list (string * AppConfig)))
    (appName : string) (appConfig : AppConfig)
  : list (string * AppConfig) :=
  property_define appName appConfig (default [] config).

(** [const newConfig = { ...config }; delete newConfig[appName]]. *)
Definition removeApp (config : option (list (string * AppConfig)))
    (appName : string) : list (string * AppConfig) :=
  filter (λ entry : string * AppConfig, entry.1 ≠ appName) (default [] config).

(* ===================================================================== *)
(** ** Sample inputs *)
(* ===================================================================== *)

(** A quiet world: no cached response, an upstream that answers 200. *)
Definition sample_world : World :=
  {| clock := 1000;
     clock_retry := 1500;
     random := (1 # 2)%Q;
     cache_match := λ _, None;
     upstream := λ _,
       Resolved {| api_status := 200; api_headers := ∅;
                   api_text := "{}" |} |}.

(** [GET /myblog/weather?q=London&units=metric] from the whitelisted
    origin. *)
Definition sample_request : Request :=
  {| method := "GET";
     url := {| endpoint := "https://statenv.example.workers.dev";
               pathname := "/myblog/weather";
               searchParams := [("q", "London"); ("units", "metric")] |};
     headers := {[ "Origin" := "http://localhost:5500" ]};
     json_body := None |}.

Definition sample_env : gmap string string :=
  {[ "MYBLOG_WEATHER_KEY" := "w-secret" ]}.

(** A store in which one client has used up its window. *)
Definition store_at_limit : gmap string RateLimitData :=
  {[ "203.0.113.7" := {| count := 100; resetAt := 61000 |} ]}.

(** The [myshop] app of [APP_CONFIG]. *)
Definition shop_app : AppConfig :=
  default {| origins := []; apis := [] |} (property "myshop" APP_CONFIG).

(** A request without an Origin header, sent from a page of the shop. *)
Definition referred_request : Request :=
  {| method := "POST";
     url := {| endpoint := "https://statenv.example.workers.dev";
               pathname := "/myshop/stripe";
               searchParams := [] |};
     headers := {[ "Referer" := "https://shop.com/cart" ]};
     json_body :=
       Some (JObj [ ("key", JStr "client-key"); ("amount", JNum 1200);
                    ("currency", JStr "eur") ]) |}.

(** A preflight for a path that names no app. *)
Definition preflight_request : Request :=
  {| method := "OPTIONS";
     url := {| endpoint := "https://statenv.example.workers.dev";
               pathname := "/";
               searchParams := [] |};
     headers := {[ "Origin" := "https://evil.example" ]};
     json_body := None |}.



(** Worlds in which the upstream server answers 500, runs into the
    10 second timer, or cannot be reached. *)
Definition failing_world : World :=
  {| clock := 1000; clock_retry := 1500; random := (1 # 2)%Q;
     cache_match := λ _, None;
     upstream := λ _,
       Resolved {| api_status := 500; api_headers := ∅;
                   api_text := "upstream failure" |} |}.

Definition timeout_world : World :=
  {| clock := 1000; clock_retry := 1500; random := (1 # 2)%Q;
     cache_match := λ _, None;
     upstream := λ _,
       Rejected {| error_name := "AbortError";
                   error_message := "The operation was aborted" |} |}.

Definition unreachable_world : World :=
  {| clock := 1000; clock_retry := 1500; random := (1 # 2)%Q;
     cache_match := λ _, None;
     upstream := λ _,
       Rejected {| error_name := "TypeError";
                   error_message := "fetch failed" |} |}.







(** A store that holds an expired entry of one client and an entry of
    another client that used up a window which is over at time 61001. *)
Definition stale_store : gmap string RateLimitData :=
  {[ "192.0.2.1" := {| count := 3; resetAt := 500 |};
     "203.0.113.7" := {| count := 100; resetAt := 61000 |} ]}.


(** [GET /myblog/weather?q=London] from a foreign origin, by the client
    of [store_at_limit]. *)
Definition foreign_request : Request :=
  {| method := "GET";
     url := {| endpoint := "https://statenv.example.workers.dev";
               pathname := "/myblog/weather";
               searchParams := [("q", "London")] |};
     headers := {[ "Origin" := "https://evil.example";
                   "CF-Connecting-IP" := "203.0.113.7" ]};
     json_body := None |}.

(** [GET /myblog/weather?q=London] from the whitelisted origin, by the
    client of [store_at_limit]. *)
Definition limited_request : Request :=
  {| method := "GET";
     url := {| endpoint := "https://statenv.example.workers.dev";
               pathname := "/myblog/weather";
               searchParams := [("q", "London")] |};
     headers := {[ "Origin" := "http://localhost:5500";
                   "CF-Connecting-IP" := "203.0.113.7" ]};
     json_body := None |}.

(** What the sample request puts in the cache in the quiet world, and a
    later world in which the cache returns it and the upstream server is
    unreachable. *)
Definition stored_weather : Response :=
  {| status := 200;
     response_headers :=
       list_to_map
         [ ("Content-Type", "application/json");
           ("Cache-Control", "public, max-age=300");
           ("X-StatEnv-App", "myblog");
           ("X-StatEnv-API", "weather");
           ("X-RateLimit-Limit", "100");
           ("X-RateLimit-Remaining", "99");
           ("X-RateLimit-Reset", "61000");
           ("X-Cache", "MISS") ];
     body := TextBody "{}" |}.

Definition replay_world : World :=
  {| clock := 5000; clock_retry := 5000; random := (1 # 2)%Q;
     cache_match := λ _, Some stored_weather;
     upstream := λ _,
       Rejected {| error_name := "TypeError";
                   error_message := "fetch failed" |} |}.

(** The weather API of [APP_CONFIG], and the address of a request that
    repeats [q] and adds [units]. *)
Definition weather_api : ApiConfig :=
  {| api_url := {| endpoint := "https://api.weatherapi.com";
                   pathname := "/v1/current.json";
                   searchParams := [] |};
     secret := "MYBLOG_WEATHER_KEY";
     api_method := "GET";
     params := Some ["q"];
     bodyFields := None;
     cache := Some 300 |}.

Definition repeated_url : URL :=
  {| endpoint := "https://statenv.example.workers.dev";
     pathname := "/myblog/weather";
     searchParams := [("q", "London"); ("units", "metric"); ("q", "Paris")] |}.

(** The secrets after the weather key was replaced. *)
Definition rotated_env : gmap string string :=
  {[ "MYBLOG_WEATHER_KEY" := "w-secret-2" ]}.



(** [GET /constructor/weather] from the whitelisted origin of the blog, by
    the client of [store_at_limit]: no app is named [constructor]. *)
Definition inherited_app_request : Request :=
  {| method := "GET";
     url := {| endpoint := "https://statenv.example.workers.dev";
               pathname := "/constructor/weather";
               searchParams := [] |};
     headers := {[ "Origin" := "http://localhost:5500";
                   "CF-Connecting-IP" := "203.0.113.7" ]};
     json_body := None |}.

(** [GET /myblog/toString] from the whitelisted origin of the blog: the
    blog has no API named [toString]. *)
Definition inherited_api_request : Request :=
  {| method := "GET";
     url := {| endpoint := "https://statenv.example.workers.dev";
               pathname := "/myblog/toString";
               searchParams := [] |};
     headers := {[ "Origin" := "http://localhost:5500" ]};
     json_body := None |}.




(* ===================================================================== *)
(** * Properties of the rate limiter *)
(* ===================================================================== *)

Section rate_limiter.
Implicit Types (store : gmap string RateLimitData) (now : Z) (rand : Q).

Lemma cleanup_lookup_Some now store k d :
  cleanup now store !! k = Some d ↔ store !! k = Some d ∧ now <= resetAt d.
Proof.
  unfold cleanup. rewrite map_lookup_filter_Some. simpl.
  split; intros [? ?]; split; auto; lia.
Qed.

Lemma cleanup_lookup_None now store k :
  cleanup now store !! k = None ↔
  store !! k = None ∨ ∃ d, store !! k = Some d ∧ now > resetAt d.
Proof.
  destruct (store !! k) as [d|] eqn:E.
  - destruct (decide (now > resetAt d)) as [Hgt|Hle].
    + split; [intros _; right; eauto|intros _].
      apply eq_None_not_Some. intros [d' Hd'].
      apply cleanup_lookup_Some in Hd' as [Hd' ?].
      rewrite E in Hd'. injection Hd' as <-. lia.
    + assert (cleanup now store !! k = Some d) as ->
        by (apply cleanup_lookup_Some; split; [done|lia]).
      split; [done|]. intros [?|(d' & Hd' & ?)]; [done|].
      injection Hd' as <-. lia.
  - split; [auto|intros _].
    apply eq_None_not_Some. intros [d' Hd'].
    apply cleanup_lookup_Some in Hd' as [Hd' ?]. congruence.
Qed.

(** The store the rest of [checkRateLimit] works on, after the optional
    sweep, keeps every entry that is still inside its window. *)
Lemma swept_lookup_live now rand store k d :
  store !! k = Some d → now <= resetAt d →
  (if Qlt_le_dec rand (1 # 100) then cleanup now store else store) !! k
  = Some d.
Proof.
  intros Hk Hle. destruct (Qlt_le_dec _ _); [|done].
  by apply cleanup_lookup_Some.
Qed.

Lemma swept_lookup_absent now rand store k :
  store !! k = None →
  (if Qlt_le_dec rand (1 # 100) then cleanup now store else store) !! k
  = None.
Proof.
  intros Hk. destruct (Qlt_le_dec _ _); [|done].
  apply cleanup_lookup_None. by left.
Qed.

(** First use of an identifier. *)
Lemma check_fresh id now rand store :
  store !! id = None →
  ∃ store',
    checkRateLimit id now rand store
    = ({| allowed := true; remaining := 99;
          resetAtOf := now + 60000 |}, store')
    ∧ store' !! id = Some {| count := 1; resetAt := now + 60000 |}.
Proof.
  intros Hk. unfold checkRateLimit.
  rewrite (swept_lookup_absent now rand store id Hk). simpl.
  eexists. split; [reflexivity|]. apply lookup_insert_eq.
Qed.

(** A call inside the window and under the limit counts the request. *)
Lemma check_count id now rand store d :
  store !! id = Some d → now <= resetAt d → count d < 100 →
  ∃ store',
    checkRateLimit id now rand store
    = ({| allowed := true; remaining := 100 - (count d + 1);
          resetAtOf := resetAt d |}, store')
    ∧ store' !! id = Some {| count := count d + 1; resetAt := resetAt d |}.
Proof.
  intros Hk Hle Hlt. unfold checkRateLimit.
  rewrite (swept_lookup_live now rand store id d Hk Hle).
  rewrite decide_False by lia. simpl.
  rewrite decide_False by lia.
  eexists. split; [reflexivity|]. apply lookup_insert_eq.
Qed.

(** A call inside the window at the limit is denied and changes nothing
    for the identifier. *)
Lemma check_deny id now rand store d :
  store !! id = Some d → now <= resetAt d → 100 <= count d →
  ∃ store',
    checkRateLimit id now rand store
    = ({| allowed := false; remaining := 0; resetAtOf := resetAt d |},
       store')
    ∧ store' !! id = Some d.
Proof.
  intros Hk Hle Hge. unfold checkRateLimit.
  pose proof (swept_lookup_live now rand store id d Hk Hle) as Hs.
  rewrite Hs. rewrite decide_False by lia. simpl.
  rewrite decide_True by lia.
  eexists. split; [reflexivity|]. exact Hs.
Qed.

(** A call after the window has passed starts a new window. *)
Lemma check_expired id now rand store d :
  store !! id = Some d → now > resetAt d →
  ∃ store',
    checkRateLimit id now rand store
    = ({| allowed := true; remaining := 99;
          resetAtOf := now + 60000 |}, store')
    ∧ store' !! id = Some {| count := 1; resetAt := now + 60000 |}.
Proof.
  intros Hk Hgt. unfold checkRateLimit.
  destruct (Qlt_le_dec rand (1 # 100)).
  - assert (cleanup now store !! id = None) as ->
      by (apply cleanup_lookup_None; right; eauto).
    simpl. eexists. split; [reflexivity|]. apply lookup_insert_eq.
  - rewrite Hk. rewrite decide_True by lia. simpl.
    eexists. split; [reflexivity|]. apply lookup_insert_eq.
Qed.

(** Inside one window the entry of the identifier moves from [c] up to
    the limit and stays there; the [k]-th further call is allowed exactly
    when [c + k] requests were counted before it and that is under the
    limit. *)
Lemma checkMany_window id calls : ∀ store c r,
  store !! id = Some {| count := c; resetAt := r |} →
  Forall (λ call : Z * Q, call.1 <= r) calls →
  (∀ (k : nat) res, (checkMany id calls store).1 !! k = Some res →
     res = if decide (c + Z.of_nat k < 100)
           then {| allowed := true; remaining := 100 - (c + Z.of_nat k + 1);
                   resetAtOf := r |}
           else {| allowed := false; remaining := 0; resetAtOf := r |})
  ∧ ∃ c', (checkMany id calls store).2 !! id
          = Some {| count := c'; resetAt := r |}.
Proof.
  induction calls as [|[now rand] calls IH]; intros store c r Hk Hall.
  - split; [intros k res Hres; by destruct k|]. simpl. eauto.
  - apply Forall_cons in Hall as [Hnow Hall]. simpl in Hnow.
    destruct (decide (c < 100)) as [Hlt|Hge].
    + destruct (check_count id now rand store _ Hk Hnow Hlt)
        as (store' & Hchk & Hk'). simpl in Hchk, Hk'.
      destruct (IH store' (c + 1) r Hk' Hall) as [IHres IHst].
      simpl. rewrite Hchk.
      destruct (checkMany id calls store') as [rs store''] eqn:Hrun.
      simpl in *. split; [|exact IHst].
      intros [|k] res Hres; simpl in Hres.
      * injection Hres as <-. rewrite decide_True by lia.
        f_equal. lia.
      * rewrite (IHres k res Hres).
        destruct (decide (c + 1 + Z.of_nat k < 100)),
          (decide (c + Z.of_nat (S k) < 100));
          try lia; [f_equal; lia|done].
    + destruct (check_deny id now rand store _ Hk Hnow ltac:(simpl; lia))
        as (store' & Hchk & Hk'). simpl in Hchk.
      destruct (IH store' c r Hk' Hall) as [IHres IHst].
      simpl. rewrite Hchk.
      destruct (checkMany id calls store') as [rs store''] eqn:Hrun.
      simpl in *. split; [|exact IHst].
      intros [|k] res Hres; simpl in Hres.
      * injection Hres as <-. by rewrite decide_False by lia.
      * rewrite (IHres k res Hres).
        by rewrite !decide_False by lia.
Qed.

(** C1.  Fixed-window counter.  Starting from the empty store, let an
    identifier make a first call at time [t0] and any number of further
    calls while the window that the first call opened is still running
    (clock readings at most [t0 + windowMs]).  Then the first
    [maxRequests] calls are allowed, the [k]-th of them (counted from 1)
    with [remaining = maxRequests - k]; every later call in the window,
    the [maxRequests + 1]-th in particular, is denied with
    [remaining = 0]; all of them report the reset time of the window; and
    the first call whose clock reading is strictly greater than that
    reset time is allowed, with the counter back at 1 and a new reset
    time [now + windowMs]. *)
Theorem rate_limiter_fixed_window id t0 rand0 (rest : list (Z * Q)) :
  Forall (λ call : Z * Q, call.1 <= t0 + windowMs RATE_LIMIT) rest →
  let run := checkMany id ((t0, rand0) :: rest) ∅ in
  (∀ (k : nat) res, run.1 !! k = Some res →
     (k < 100)%nat →
     res = {| allowed := true;
              remaining := maxRequests RATE_LIMIT - (Z.of_nat k + 1);
              resetAtOf := t0 + windowMs RATE_LIMIT |})
  ∧ (∀ (k : nat) res, run.1 !! k = Some res →
     (100 ≤ k)%nat →
     res = {| allowed := false; remaining := 0;
              resetAtOf := t0 + windowMs RATE_LIMIT |})
  ∧ (∀ now rand, now > t0 + windowMs RATE_LIMIT →
     ∃ store',
       checkRateLimit id now rand run.2
       = ({| allowed := true; remaining := maxRequests RATE_LIMIT - 1;
             resetAtOf := now + windowMs RATE_LIMIT |}, store')
       ∧ store' !! id
         = Some {| count := 1; resetAt := now + windowMs RATE_LIMIT |}).
Proof.
  intros Hall run. subst run. simpl in Hall. simpl.
  destruct (check_fresh id t0 rand0 ∅ (lookup_empty id))
    as (store1 & Hchk & Hk1).
  rewrite Hchk.
  destruct (checkMany_window id rest store1 1 (t0 + 60000) Hk1 Hall)
    as [Hres [c' Hfin]].
  destruct (checkMany id rest store1) as [rs store2] eqn:Hrun.
  simpl in *. repeat split.
  - intros [|k] res Hlk Hlt; simpl in Hlk.
    + by injection Hlk as <-.
    + rewrite (Hres k res Hlk). rewrite decide_True by lia.
      f_equal. lia.
  - intros [|k] res Hlk Hge; simpl in Hlk; [lia|].
    rewrite (Hres k res Hlk). by rewrite decide_False by lia.
  - intros now rand Hgt.
    exact (check_expired id now rand store2 _ Hfin Hgt).
Qed.

(** The statement applied to 101 calls at one clock reading, followed by
    a call after the window. *)
Lemma rate_limiter_fixed_window_witness :
  Forall (λ call : Z * Q, call.1 <= 1000 + windowMs RATE_LIMIT)
    (replicate 100%nat (1000, (1 # 2)%Q))
  ∧ (checkMany "203.0.113.7" (replicate 101%nat (1000, (1 # 2)%Q)) ∅).1 !! 100%nat
    = Some {| allowed := false; remaining := 0; resetAtOf := 61000 |}.
Proof.
  assert (Forall (λ call : Z * Q, call.1 <= 1000 + windowMs RATE_LIMIT)
            (replicate 100%nat (1000, (1 # 2)%Q))) as Hall.
  { apply Forall_replicate. simpl. lia. }
  split; [exact Hall|].
  pose proof (rate_limiter_fixed_window "203.0.113.7" 1000 (1 # 2)%Q
                (replicate 100%nat (1000, (1 # 2)%Q)) Hall) as (_ & Hdeny & _).
  destruct ((checkMany "203.0.113.7" (replicate 101%nat (1000, (1 # 2)%Q)) ∅).1
              !! 100%nat) as [res|] eqn:E.
  - f_equal. exact (Hdeny 100%nat res E (le_n _)).
  - apply lookup_ge_None in E. vm_compute in E. lia.
Defined.

(** The optional sweep only ever removes entries, and only expired ones. *)
Lemma swept_lookup_Some now rand store k d :
  (if Qlt_le_dec rand (1 # 100) then cleanup now store else store) !! k
  = Some d →
  store !! k = Some d.
Proof.
  destruct (Qlt_le_dec _ _); [|done].
  by intros [? _]%cleanup_lookup_Some.
Qed.

Lemma swept_lookup_None now rand store k d :
  store !! k = Some d →
  (if Qlt_le_dec rand (1 # 100) then cleanup now store else store) !! k
  = None →
  now > resetAt d.
Proof.
  intros Hk. destruct (Qlt_le_dec _ _); [|congruence].
  intros [?|(d' & Hd' & ?)]%cleanup_lookup_None; [congruence|].
  rewrite Hk in Hd'. by injection Hd' as <-.
Qed.

(** C4.  One call of [checkRateLimit] preserves the bound on the
    counters; a call that is denied leaves the entry of its identifier
    (count and reset time) as it was; and an entry that was in the store
    before the call and is gone after it had expired ([now] strictly
    greater than its reset time), so that an entry still inside its
    window is always kept. *)
Theorem rate_limit_store_invariant id now rand store :
  counts_bounded store →
  let result := checkRateLimit id now rand store in
  counts_bounded result.2
  ∧ (allowed result.1 = false → result.2 !! id = store !! id)
  ∧ (∀ k d, store !! k = Some d → result.2 !! k = None → now > resetAt d)
  ∧ (∀ k d, store !! k = Some d → now <= resetAt d →
       is_Some (result.2 !! k)).
Proof.
  intros Hinv result. subst result. unfold checkRateLimit.
  pose proof (swept_lookup_Some now rand store) as HsS.
  pose proof (swept_lookup_None now rand store) as HsN.
  pose proof (swept_lookup_live now rand store) as HsL.
  set (swept := if Qlt_le_dec rand (1 # 100) then cleanup now store
                else store) in *.
  assert (counts_bounded swept) as Hinv'.
  { intros k d Hk. apply (Hinv k d). by apply HsS. }
  assert (∀ d0 k d, store !! k = Some d → <[id := d0]> swept !! k = None →
                    now > resetAt d) as Hgone.
  { intros d0 k d Hk Hnone. apply lookup_insert_None in Hnone as [Hnone _].
    by apply (HsN k d). }
  assert (∀ d0 k d, store !! k = Some d → now <= resetAt d →
                    is_Some (<[id := d0]> swept !! k)) as Hkept.
  { intros d0 k d Hk Hle. destruct (decide (id = k)) as [->|Hne].
    - rewrite lookup_insert_eq. eauto.
    - rewrite lookup_insert_ne by done. rewrite (HsL k d Hk Hle). eauto. }
  assert (∀ d0, count d0 <= 100 → counts_bounded (<[id := d0]> swept))
    as Hins.
  { intros d0 Hd0 k d. destruct (decide (id = k)) as [->|Hne].
    - rewrite lookup_insert_eq. intros [= <-]. exact Hd0.
    - rewrite lookup_insert_ne by done. apply Hinv'. }
  destruct (swept !! id) as [data|] eqn:Hid; simpl.
  - destruct (decide (now > resetAt data)) as [Hexp|Hlive]; simpl.
    { split_and!; [by apply Hins|done|apply Hgone|apply Hkept]. }
    destruct (decide (count data >= 100)) as [Hfull|Hroom]; simpl.
    + split_and!; [exact Hinv'| |apply HsN|].
      * intros _. rewrite Hid. symmetry. by apply HsS.
      * intros k d Hk Hle. rewrite (HsL k d Hk Hle). eauto.
    + split_and!; [apply Hins; simpl; lia|done|apply Hgone|apply Hkept].
  - split_and!; [by apply Hins|done|apply Hgone|apply Hkept].
Qed.

(** The statement applied to a store whose only entry is at the limit:
    the call is denied and the entry is untouched. *)
Lemma rate_limit_store_invariant_witness :
  counts_bounded store_at_limit
  ∧ allowed (checkRateLimit "203.0.113.7" 2000 (1 # 1000)%Q
               store_at_limit).1 = false
  ∧ (checkRateLimit "203.0.113.7" 2000 (1 # 1000)%Q store_at_limit).2
      !! "203.0.113.7"
    = Some {| count := 100; resetAt := 61000 |}.
Proof.
  assert (counts_bounded store_at_limit) as Hinv.
  { unfold store_at_limit.
    intros k d [_ <-]%lookup_singleton_Some. simpl. lia. }
  split; [exact Hinv|].
  destruct (rate_limit_store_invariant "203.0.113.7" 2000 (1 # 1000)%Q
              store_at_limit Hinv) as (_ & Hdeny & _).
  split; [reflexivity|].
  rewrite (Hdeny eq_refl). reflexivity.
Defined.

End rate_limiter.

(* ===================================================================== *)
(** * Properties of the origin check *)
(* ===================================================================== *)

Section origin_check.

Lemma startsWith_spec (s searchString : string) :
  startsWith s searchString = true ↔ ∃ rest, s = searchString +:+ rest.
Proof.
  unfold startsWith. revert s.
  induction searchString as [|a p IH]; intros s; simpl.
  - destruct s; split; eauto.
  - destruct s as [|b s]; simpl.
    + split; [done|]. intros [rest Hrest]. discriminate.
    + destruct (ascii_dec a b) as [->|Hne].
      * rewrite IH. split; intros [rest Hrest]; exists rest.
        -- by rewrite Hrest.
        -- by injection Hrest.
      * split; [done|]. intros [rest Hrest]. injection Hrest as ? ?.
        congruence.
Qed.

Lemma startsWith_empty (searchString : string) :
  startsWith "" searchString = true → searchString = "".
Proof. by destruct searchString. Qed.

(** A header read with [|| ''] is the header value, or the empty string
    when the header is missing. *)
Lemma or_else_empty (v : option string) : or_else v "" = default "" v.
Proof. destruct v as [s|]; simpl; [|done]. by case_decide. Qed.

(** C3.  Let every whitelisted origin of the app be a non-empty string.
    The origin check allows the request if and only if the Origin header
    or the Referer header is present with a value that has a whitelisted
    origin as a prefix; when both headers are missing the request is not
    allowed. *)
Theorem origin_check_prefix (appConfig : AppConfig) (request : Request) :
  Forall (λ allowed, allowed ≠ "") (origins appConfig) →
  let verdict :=
    isAllowed appConfig (or_else (headers request !! "Origin") "")
      (or_else (headers request !! "Referer") "") in
  (verdict = true ↔
     ∃ allowed value rest,
       allowed ∈ origins appConfig
       ∧ (headers request !! "Origin" = Some value
          ∨ headers request !! "Referer" = Some value)
       ∧ value = allowed +:+ rest)
  ∧ (headers request !! "Origin" = None →
     headers request !! "Referer" = None →
     verdict = false).
Proof.
  intros Hne verdict. subst verdict. unfold isAllowed.
  rewrite !or_else_empty. rewrite Forall_forall in Hne.
  assert (∀ (v : option string) allowed,
            allowed ∈ origins appConfig →
            startsWith (default "" v) allowed = true ↔
            ∃ value rest, v = Some value ∧ value = allowed +:+ rest)
    as Hhdr.
  { intros v allowed Hin. destruct v as [value|]; simpl.
    - rewrite startsWith_spec. split.
      + intros [rest ->]. eauto.
      + intros (value' & rest & [= <-] & ->). eauto.
    - split.
      + intros Hs%startsWith_empty. by apply Hne in Hin.
      + by intros (? & ? & ? & _). }
  split.
  - rewrite existsb_exists. split.
    + intros (allowed & Hin%list_elem_of_In & Hor).
      apply orb_true_iff in Hor as [Ho|Hr].
      * apply Hhdr in Ho as (value & rest & Hv & ->); [|done].
        exists allowed, (allowed +:+ rest), rest. auto.
      * apply Hhdr in Hr as (value & rest & Hv & ->); [|done].
        exists allowed, (allowed +:+ rest), rest. auto.
    + intros (allowed & value & rest & Hin & Hor & ->).
      exists allowed. split; [by apply list_elem_of_In|].
      apply orb_true_iff.
      destruct Hor as [Ho|Hr]; [left|right]; apply Hhdr; eauto.
  - intros -> ->. simpl.
    apply not_true_is_false. rewrite existsb_exists.
    intros (allowed & Hin%list_elem_of_In & Hor).
    apply orb_true_iff in Hor as [Hs|Hs];
      apply startsWith_empty in Hs; by apply Hne in Hin.
Qed.

(** The statement applied to the [myshop] app and a request that has no
    Origin header and a Referer inside the shop. *)
Lemma origin_check_prefix_witness :
  Forall (λ allowed, allowed ≠ "") (origins shop_app)
  ∧ isAllowed shop_app (or_else (headers referred_request !! "Origin") "")
      (or_else (headers referred_request !! "Referer") "") = true.
Proof.
  assert (Forall (λ allowed, allowed ≠ "") (origins shop_app)) as Hne.
  { repeat constructor; discriminate. }
  split; [exact Hne|].
  apply (origin_check_prefix shop_app referred_request Hne).
  exists "https://shop.com", "https://shop.com/cart", "/cart".
  split; [apply list_elem_of_here|]. split; [by right|reflexivity].
Defined.

End origin_check.

(* ===================================================================== *)
(** * Properties of the handler *)
(* ===================================================================== *)

Section handler.
Implicit Types (config : list (string * AppConfig)) (request : Request).
Implicit Types (env : gmap string string) (w : World).
Implicit Types (initial : gmap string RateLimitData).

(** A route that stops at a member of [Object.prototype] is answered with
    an error payload: before the rate limiter with 500 or 403, after it
    with 429 or 500.  No upstream call is made and nothing is cached. *)
Lemma prototypeRoute_leave config request env w initial outcome :
  prototypeRoute config request env w initial = Some outcome →
  sent outcome = None ∧ stored outcome = None
  ∧ ((exit outcome ∈ [InternalError; Forbidden]
      ∧ store_after outcome = initial
      ∧ ∃ data code, response outcome = jsonResponse data code)
     ∨ (∃ rl,
          checkRateLimit (rateLimitKeyOf request) (clock w) (random w) initial
          = (rl, store_after outcome)
          ∧ ((exit outcome = RateLimited ∧ allowed rl = false
              ∧ response outcome
                = tooManyRequests rl (or_else (headers request !! "Origin") "")
                    (clock_retry w))
             ∨ (exit outcome ∈ [ConfigurationError; InternalError]
                ∧ allowed rl = true
                ∧ ∃ data, response outcome = jsonResponse data 500)))).
Proof.
  unfold prototypeRoute, rateLimitKeyOf.
  destruct (filter _ _) as [|app [|api rest]]; [done..|].
  destruct (property app config) as [appConfig|].
  2: { case_decide; [|done]. intros [= <-]. simpl. split_and!; [done..|].
       left. split_and!; [by repeat constructor|done|by eauto]. }
  destruct (property api (apis appConfig)); [done|].
  case_decide; [|done].
  destruct (isAllowed appConfig _ _); simpl.
  2: { intros [= <-]. simpl. split_and!; [done..|].
       left. split_and!; [by repeat constructor|done|by eauto]. }
  destruct (checkRateLimit _ _ _ _) as [rl after].
  destruct (allowed rl) eqn:Hallowed; simpl.
  - destruct (env !! "undefined") as [secretValue|];
      [case_decide|]; intros [= <-]; simpl; (split_and!; [done..|]);
      right; exists rl; (split; [done|]); right;
      (split_and!; [by repeat constructor|done|by eauto]).
  - intros [= <-]. simpl. split_and!; [done..|].
    right. exists rl. split; [done|]. by left.
Qed.

Lemma prototypeRoute_exit config request env w initial outcome :
  prototypeRoute config request env w initial = Some outcome →
  exit outcome ∈ [InternalError; Forbidden; RateLimited; ConfigurationError].
Proof.
  intros Hproto.
  destruct (prototypeRoute_leave _ _ _ _ _ _ Hproto)
    as (_ & _ & [(Hin & _)|(rl & _ & [(-> & _)|(Hin & _)])]).
  - apply elem_of_cons in Hin as [->|Hin]; [by repeat constructor|].
    apply list_elem_of_singleton in Hin as ->. by repeat constructor.
  - by repeat constructor.
  - apply elem_of_cons in Hin as [->|Hin]; [by repeat constructor|].
    apply list_elem_of_singleton in Hin as ->. by repeat constructor.
Qed.

(** On such a route the stages of [validate] are not reached. *)
Lemma prototypeRoute_validate config request env w initial outcome pass :
  prototypeRoute config request env w initial = Some outcome →
  validate config request w initial = inr pass → False.
Proof.
  unfold prototypeRoute, validate.
  destruct (filter _ _) as [|app [|api rest]]; [done..|].
  destruct (property app config) as [appConfig|]; [|done].
  by destruct (property api (apis appConfig)).
Qed.

(** Whether a route stops at a member of [Object.prototype] depends on
    the request and the configuration only. *)
Lemma prototypeRoute_none config request env w initial :
  prototypeRoute config request env w initial = None →
  ∀ env' w' initial', prototypeRoute config request env' w' initial' = None.
Proof.
  intros Hproto env' w' initial'. revert Hproto. unfold prototypeRoute.
  destruct (filter _ _) as [|app [|api rest]]; [done..|].
  destruct (property app config) as [appConfig|]; [|by case_decide].
  destruct (property api (apis appConfig)); [done|].
  case_decide; [|done].
  destruct (isAllowed appConfig _ _); simpl; [|done].
  destruct (checkRateLimit _ _ _ _) as [rl after].
  destruct (allowed rl); simpl; [|done].
  destruct (env !! "undefined"); [by case_decide|done].
Qed.

(** The handler on a request that passed the stages of [validate]. *)
Lemma fetch_pass config request env w initial pass :
  method request ≠ "OPTIONS" →
  validate config request w initial = inr pass →
  fetch config request env w initial = forward pass request env w.
Proof.
  intros Hmethod Hvalidate. unfold fetch. rewrite decide_False by done.
  destruct (prototypeRoute config request env w initial) as [outcome|]
    eqn:Hproto.
  - by destruct (prototypeRoute_validate _ _ _ _ _ _ _ Hproto Hvalidate).
  - by rewrite Hvalidate.
Qed.


(** C9.  Whatever the path, the configuration, the headers and the state
    of the rate limiter, a request whose method is OPTIONS is answered with
    status 204 and the four CORS headers: Access-Control-Allow-Origin is
    the value of the Origin header, or [*] when the header is missing (or
    empty).  No upstream call is made and the rate-limit store is left as
    it was. *)
Theorem preflight_response config request env w initial :
  method request = "OPTIONS" →
  let outcome := fetch config request env w initial in
  let h := response_headers (response outcome) in
  status (response outcome) = 204
  ∧ h !! "Access-Control-Allow-Origin"
    = Some (or_else (headers request !! "Origin") "*")
  ∧ (∀ value, headers request !! "Origin" = Some value → value ≠ "" →
       h !! "Access-Control-Allow-Origin" = Some value)
  ∧ (headers request !! "Origin" = None →
       h !! "Access-Control-Allow-Origin" = Some "*")
  ∧ h !! "Access-Control-Allow-Methods" = Some "GET, POST, OPTIONS"
  ∧ h !! "Access-Control-Allow-Headers" = Some "Content-Type"
  ∧ h !! "Access-Control-Max-Age" = Some "86400"
  ∧ store_after outcome = initial
  ∧ sent outcome = None.
Proof.
  intros Hm outcome h. subst outcome h. unfold fetch.
  rewrite decide_True by done. simpl.
  split_and!; try reflexivity.
  - intros value -> Hne. unfold or_else. by rewrite decide_False.
  - by intros ->.
Qed.

(** The statement applied to a preflight from a foreign origin, for a path
    without segments, while a client is at its limit. *)
Lemma preflight_response_witness :
  method preflight_request = "OPTIONS"
  ∧ status (response (fetch APP_CONFIG preflight_request sample_env
                        sample_world store_at_limit)) = 204
  ∧ response_headers
      (response (fetch APP_CONFIG preflight_request sample_env
                   sample_world store_at_limit))
      !! "Access-Control-Allow-Origin"
    = Some "https://evil.example"
  ∧ store_after (fetch APP_CONFIG preflight_request sample_env
                   sample_world store_at_limit) = store_at_limit.
Proof.
  destruct (preflight_response APP_CONFIG preflight_request sample_env
              sample_world store_at_limit eq_refl)
    as (Hstatus & Horigin & _ & _ & _ & _ & _ & Hstore & _).
  split; [reflexivity|]. split; [exact Hstatus|].
  split; [exact Horigin|exact Hstore].
Defined.

(** What is known when the stages before secret resolution all pass. *)
Lemma validate_pass config request w initial pass :
  validate config request w initial = inr pass →
  ∃ appConfig rest,
    filter (λ part, part ≠ EmptyString)
      (split "/"%char (pathname (url request)))
    = appName pass :: apiName pass :: rest
    ∧ property (appName pass) config = Some appConfig
    ∧ property (apiName pass) (apis appConfig) = Some (apiConfig pass)
    ∧ origin pass = or_else (headers request !! "Origin") ""
    ∧ isAllowed appConfig (origin pass)
        (or_else (headers request !! "Referer") "") = true
    ∧ checkRateLimit (rateLimitKeyOf request) (clock w) (random w) initial
      = (rateLimit pass, store pass)
    ∧ allowed (rateLimit pass) = true
    ∧ (cache_enabled (apiConfig pass) = true →
       cache_match w request = None).
Proof.
  unfold validate, rateLimitKeyOf.
  destruct (filter _ _) as [|app [|api rest]]; [done..|].
  destruct (property app config) as [appConfig|] eqn:Happ; [|done].
  destruct (property api (apis appConfig)) as [api_config|] eqn:Hapi; [|done].
  destruct (isAllowed appConfig _ _) eqn:Horigin; [|done]. simpl.
  destruct (checkRateLimit _ _ _ _) as [rl after] eqn:Hcheck.
  destruct (allowed rl) eqn:Hallowed; [|done]. simpl.
  destruct (cache_enabled api_config) eqn:Hcache.
  - destruct (cache_match w request) eqn:Hmatch; [done|].
    intros [= <-]. simpl. exists appConfig, rest. by split_and!.
  - intros [= <-]. simpl. exists appConfig, rest.
    split_and!; try done. congruence.
Qed.


Lemma forward_store pass request env w :
  store_after (forward pass request env w) = store pass.
Proof.
  unfold forward.
  destruct (env !! secret (apiConfig pass)) as [secretValue|]; [|done].
  case_decide; [done|].
  destruct (proxyRequestOf _ _ _) as [error|proxyRequest]; [done|].
  destruct (upstream w proxyRequest) as [apiResponse|fetchError]; [done|].
  by case_decide.
Qed.



(** The three ways in which the stages before secret resolution return a
    response: an error built by [jsonResponse] before the rate limiter has
    run; the 429 answer; a cached response. *)
Lemma validate_leave config request w initial outcome :
  validate config request w initial = inl outcome →
  sent outcome = None ∧ stored outcome = None
  ∧ ((exit outcome ∈ [InvalidRoute; UnknownApp; UnknownApi; Forbidden]
      ∧ store_after outcome = initial
      ∧ ∃ data code, response outcome = jsonResponse data code)
     ∨ (∃ rl,
          checkRateLimit (rateLimitKeyOf request) (clock w) (random w) initial
          = (rl, store_after outcome)
          ∧ ((exit outcome = RateLimited ∧ allowed rl = false
              ∧ response outcome
                = tooManyRequests rl (or_else (headers request !! "Origin") "")
                    (clock_retry w))
             ∨ (exit outcome = CacheHit ∧ allowed rl = true
                ∧ ∃ cachedResponse,
                    cache_match w request = Some cachedResponse
                    ∧ response outcome
                      = cacheHit cachedResponse rl
                          (or_else (headers request !! "Origin") ""))))).
Proof.
  unfold validate, rateLimitKeyOf.
  destruct (filter _ _) as [|app [|api rest]].
  1,2: intros [= <-]; simpl; split_and!; [done..|left];
       (split_and!; [by repeat constructor|done|eauto]).
  destruct (property app config) as [appConfig|].
  2: intros [= <-]; simpl; split_and!; [done..|left];
     (split_and!; [by repeat constructor|done|eauto]).
  destruct (property api (apis appConfig)) as [api_config|].
  2: intros [= <-]; simpl; split_and!; [done..|left];
     (split_and!; [by repeat constructor|done|eauto]).
  destruct (isAllowed appConfig _ _); simpl.
  2: intros [= <-]; simpl; split_and!; [done..|left];
     (split_and!; [by repeat constructor|done|eauto]).
  destruct (checkRateLimit _ _ _ _) as [rl after].
  destruct (allowed rl) eqn:Hallowed; simpl.
  - destruct (cache_enabled api_config); [|done].
    destruct (cache_match w request) as [cachedResponse|] eqn:Hmatch;
      [|done].
    intros [= <-]. simpl. split_and!; [done..|right].
    exists rl. split; [done|]. right. eauto.
  - intros [= <-]. simpl. split_and!; [done..|right].
    exists rl. split; [done|]. left. eauto.
Qed.

(** The exits of the stages from secret resolution on. *)
Lemma forward_exit pass request env w :
  exit (forward pass request env w)
  ∈ [ConfigurationError; InternalError; Forwarded; GatewayTimeout;
     BadGateway].
Proof.
  unfold forward.
  destruct (env !! secret (apiConfig pass)) as [secretValue|];
    [|by repeat constructor].
  case_decide; [by repeat constructor|].
  destruct (proxyRequestOf _ _ _) as [error|proxyRequest];
    [by repeat constructor|].
  destruct (upstream w proxyRequest) as [apiResponse|fetchError];
    [by repeat constructor|].
  case_decide; by repeat constructor.
Qed.


Lemma or_else_origin (v : option string) :
  or_else (Some (or_else v "")) "*" = or_else v "*".
Proof.
  destruct v as [s|]; simpl; [|done].
  destruct (decide (s = "")) as [->|Hne]; simpl; [done|].
  by rewrite decide_False.
Qed.




Lemma forward_stored pass request env w entry :
  stored (forward pass request env w) = Some entry →
  ∃ proxyRequest apiResponse,
    sent (forward pass request env w) = Some proxyRequest
    ∧ upstream w proxyRequest = Resolved apiResponse
    ∧ cache_enabled (apiConfig pass) = true
    ∧ ok apiResponse = true
    ∧ entry = (request, proxied pass apiResponse).
Proof.
  unfold forward.
  destruct (env !! secret (apiConfig pass)) as [secretValue|]; [|done].
  case_decide; [done|].
  destruct (proxyRequestOf _ _ _) as [error|proxyRequest]; [done|].
  destruct (upstream w proxyRequest) as [apiResponse|fetchError] eqn:Hup.
  - simpl.
    destruct (cache_enabled (apiConfig pass)) eqn:Hcache; [|done].
    destruct (ok apiResponse) eqn:Hok; [|done]. simpl.
    intros [= <-]. exists proxyRequest, apiResponse. by split_and!.
  - by case_decide.
Qed.

(** C5.  Let the cache lifetimes of the configuration be non-negative, as
    the configuration validator demands.  When the handler hands a response
    to [cache.put], the request passed the earlier stages to an API whose
    cache lifetime is greater than 0, the upstream call was made and
    resolved with a status from 200 to 299, and what is stored, under the
    inbound request, is the response built from that upstream response.
    Hence nothing is stored when the cache lifetime of the API is missing
    or 0, and nothing is stored when the upstream status is outside 200 to
    299. *)
Theorem cache_write_only_on_success config request env w initial :
  cache_valid config →
  let outcome := fetch config request env w initial in
  (∀ entry, stored outcome = Some entry →
     ∃ pass proxyRequest apiResponse ttl,
       validate config request w initial = inr pass
       ∧ cache (apiConfig pass) = Some ttl ∧ 0 < ttl
       ∧ sent outcome = Some proxyRequest
       ∧ upstream w proxyRequest = Resolved apiResponse
       ∧ 200 <= api_status apiResponse <= 299
       ∧ entry = (request, proxied pass apiResponse))
  ∧ (∀ pass, validate config request w initial = inr pass →
       cache (apiConfig pass) = None ∨ cache (apiConfig pass) = Some 0 →
       stored outcome = None)
  ∧ (∀ proxyRequest apiResponse,
       sent outcome = Some proxyRequest →
       upstream w proxyRequest = Resolved apiResponse →
       ¬ (200 <= api_status apiResponse <= 299) →
       stored outcome = None).
Proof.
  intros Hvalid outcome.
  assert (∀ entry, stored outcome = Some entry →
     ∃ pass proxyRequest apiResponse ttl,
       validate config request w initial = inr pass
       ∧ cache (apiConfig pass) = Some ttl ∧ 0 < ttl
       ∧ sent outcome = Some proxyRequest
       ∧ upstream w proxyRequest = Resolved apiResponse
       ∧ 200 <= api_status apiResponse <= 299
       ∧ entry = (request, proxied pass apiResponse)) as Honly.
  { subst outcome. unfold fetch. case_decide; [done|].
    destruct (prototypeRoute config request env w initial) as [early|]
      eqn:Hproto.
    { intros entry Hstored.
      destruct (prototypeRoute_leave _ _ _ _ _ _ Hproto) as (_ & Hnone & _).
      congruence. }
    destruct (validate config request w initial) as [early|pass] eqn:Hvalidate.
    { intros entry Hstored.
      destruct (validate_leave _ _ _ _ _ Hvalidate) as (_ & Hnone & _). congruence. }
    intros entry Hstored.
    destruct (forward_stored _ _ _ _ _ Hstored)
      as (proxyRequest & apiResponse & Hsent & Hup & Hcache & Hok & ->).
    destruct (validate_pass _ _ _ _ _ Hvalidate)
      as (appConfig & rest & _ & Happ & Hapi & _).
    unfold cache_enabled in Hcache.
    destruct (cache (apiConfig pass)) as [ttl|] eqn:Httl; [|done].
    apply bool_decide_eq_true in Hcache.
    pose proof (Hvalid _ _ _ _ _ Happ Hapi Httl).
    apply bool_decide_eq_true in Hok.
    exists pass, proxyRequest, apiResponse, ttl.
    split_and!; try done; lia. }
  split; [exact Honly|]. split.
  - intros pass Hvalidate Hoff.
    destruct (stored outcome) as [entry|] eqn:Hstored; [|done].
    destruct (Honly entry eq_refl)
      as (pass' & _ & _ & ttl & Hvalidate' & Httl & Hpos & _).
    rewrite Hvalidate in Hvalidate'. injection Hvalidate' as <-.
    destruct Hoff as [Hoff|Hoff]; rewrite Hoff in Httl; [done|].
    injection Httl as <-. lia.
  - intros proxyRequest apiResponse Hsent Hup Hbad.
    destruct (stored outcome) as [entry|] eqn:Hstored; [|done].
    destruct (Honly entry eq_refl)
      as (_ & proxyRequest' & apiResponse' & _ & _ & _ & _ & Hsent' & Hup'
          & Hok & _).
    rewrite Hsent in Hsent'. injection Hsent' as <-.
    rewrite Hup in Hup'. injection Hup' as <-. done.
Qed.

Lemma APP_CONFIG_cache_valid : cache_valid APP_CONFIG.
Proof.
  intros app appConfig api apiConfig ttl Happ Hapi Httl.
  simpl in Happ.
  repeat (case_decide; simplify_eq/=); try done;
    repeat (case_decide; simplify_eq/=); try done; lia.
Qed.

(** The statement applied to the sample request: nothing is stored when
    the upstream server answers 500. *)
Lemma cache_write_only_on_success_witness :
  cache_valid APP_CONFIG
  ∧ stored (fetch APP_CONFIG sample_request sample_env failing_world ∅)
    = None.
Proof.
  split; [exact APP_CONFIG_cache_valid|].
  eapply (proj2 (proj2 (cache_write_only_on_success APP_CONFIG
                          sample_request sample_env failing_world ∅
                          APP_CONFIG_cache_valid))).
  - reflexivity.
  - reflexivity.
  - simpl. lia.
Defined.

(** C7.  Take a request that passed route resolution, the origin check,
    the rate limiter and the cache lookup.  If the secret that the API
    names is missing from [env] (or empty), the handler answers 500 with
    the error [Configuration error] and makes no upstream call.  If the
    secret is there and the upstream request could be built, the call is
    made, and when it is rejected the handler answers 504 with the error
    [Gateway Timeout] if the rejection is the [AbortError] of the timer,
    and 502 with the error [Bad Gateway] for every other rejection. *)
Theorem upstream_failure_translation config request env w initial pass :
  method request ≠ "OPTIONS" →
  validate config request w initial = inr pass →
  let outcome := fetch config request env w initial in
  (env !! secret (apiConfig pass) = None
   ∨ env !! secret (apiConfig pass) = Some "" →
     response outcome
     = jsonResponse (JObj [ ("error", JStr "Configuration error") ]) 500
     ∧ exit outcome = ConfigurationError
     ∧ sent outcome = None)
  ∧ (∀ secretValue proxyRequest,
       env !! secret (apiConfig pass) = Some secretValue →
       secretValue ≠ "" →
       proxyRequestOf (apiConfig pass) secretValue request
       = inr proxyRequest →
       sent outcome = Some proxyRequest
       ∧ ∀ fetchError,
           upstream w proxyRequest = Rejected fetchError →
           (error_name fetchError = "AbortError" →
              response outcome
              = jsonResponse
                  (JObj
                     [ ("error", JStr "Gateway Timeout");
                       ("message",
                        JStr "External API took too long to respond") ])
                  504
              ∧ exit outcome = GatewayTimeout)
           ∧ (error_name fetchError ≠ "AbortError" →
              response outcome
              = jsonResponse
                  (JObj
                     [ ("error", JStr "Bad Gateway");
                       ("message", JStr "Failed to reach external API") ])
                  502
              ∧ exit outcome = BadGateway)).
Proof.
  intros Hmethod Hvalidate outcome. subst outcome.
  rewrite (fetch_pass _ _ _ _ _ _ Hmethod Hvalidate). unfold forward. split.
  - intros [-> | ->]; [done|]. by rewrite decide_True.
  - intros secretValue proxyRequest -> Hne ->.
    rewrite decide_False by done.
    destruct (upstream w proxyRequest) as [apiResponse|fetchError'].
    + split; [done|]. intros fetchError [=].
    + case_decide; (split; [done|]); intros fetchError [= <-];
        split; intros; done.
Qed.

(** The statement applied to the sample request: without the secret, with
    the timer firing, and with an unreachable server. *)
Lemma upstream_failure_translation_witness :
  method sample_request ≠ "OPTIONS"
  ∧ (∃ pass, validate APP_CONFIG sample_request timeout_world ∅ = inr pass)
  ∧ status (response (fetch APP_CONFIG sample_request ∅ timeout_world ∅))
    = 500
  ∧ status (response (fetch APP_CONFIG sample_request sample_env
                        timeout_world ∅)) = 504
  ∧ status (response (fetch APP_CONFIG sample_request sample_env
                        unreachable_world ∅)) = 502.
Proof.
  assert (method sample_request ≠ "OPTIONS") as Hmethod by discriminate.
  split; [exact Hmethod|]. split; [eexists; reflexivity|].
  split_and!.
  - pose proof (upstream_failure_translation APP_CONFIG sample_request ∅
                  timeout_world ∅ _ Hmethod eq_refl) as [Hmissing _].
    destruct (Hmissing (or_introl eq_refl)) as (Hresponse & _).
    by rewrite Hresponse.
  - pose proof (upstream_failure_translation APP_CONFIG sample_request
                  sample_env timeout_world ∅ _ Hmethod eq_refl)
      as [_ Hcall].
    destruct (Hcall "w-secret" _ eq_refl ltac:(discriminate) eq_refl)
      as [_ Hrejected].
    destruct (Hrejected _ eq_refl) as [Habort _].
    destruct (Habort eq_refl) as [Hresponse _].
    by rewrite Hresponse.
  - pose proof (upstream_failure_translation APP_CONFIG sample_request
                  sample_env unreachable_world ∅ _ Hmethod eq_refl)
      as [_ Hcall].
    destruct (Hcall "w-secret" _ eq_refl ltac:(discriminate) eq_refl)
      as [_ Hrejected].
    destruct (Hrejected _ eq_refl) as [_ Hother].
    destruct (Hother ltac:(discriminate)) as [Hresponse _].
    by rewrite Hresponse.
Defined.

Lemma jsonResponse_cors data code :
  response_headers (jsonResponse data code) !! "Access-Control-Allow-Origin"
  = Some "*".
Proof. reflexivity. Qed.

Lemma tooManyRequests_cors rl requestOrigin now :
  response_headers (tooManyRequests rl requestOrigin now)
    !! "Access-Control-Allow-Origin"
  = Some (or_else (Some requestOrigin) "*").
Proof. reflexivity. Qed.

(** Every error that the stages from secret resolution on answer with is
    built by [jsonResponse]. *)
Lemma forward_error pass request env w :
  is_error (exit (forward pass request env w)) = true →
  exit (forward pass request env w) ≠ RateLimited
  ∧ ∃ data code, response (forward pass request env w)
                 = jsonResponse data code.
Proof.
  unfold forward.
  destruct (env !! secret (apiConfig pass)) as [secretValue|];
    [|by eauto].
  case_decide; [by eauto|].
  destruct (proxyRequestOf _ _ _) as [error|proxyRequest]; [by eauto|].
  destruct (upstream w proxyRequest) as [apiResponse|fetchError]; [done|].
  case_decide; by eauto.
Qed.

(** C8, as the handler has it.  Every error response carries an
    Access-Control-Allow-Origin header.  On the 429 answer its value is the
    Origin header of the request, or [*] when that header is missing or
    empty; on every other error answer (404, 403, 500, 502, 504), all built
    by [jsonResponse], its value is [*]. *)
Theorem error_response_cors config request env w initial :
  let outcome := fetch config request env w initial in
  is_error (exit outcome) = true →
  response_headers (response outcome) !! "Access-Control-Allow-Origin"
  = Some match exit outcome with
         | RateLimited => or_else (headers request !! "Origin") "*"
         | _ => "*"
         end.
Proof.
  intros outcome. subst outcome. unfold fetch. case_decide; [done|].
  destruct (prototypeRoute config request env w initial) as [outcome|]
    eqn:Hproto.
  { intros _.
    destruct (prototypeRoute_leave _ _ _ _ _ _ Hproto) as (_ & _ & Hcases).
    destruct Hcases as [(Hin & _ & data & code & ->)
                       |(rl & _ & [(-> & _ & ->)|(Hin & _ & data & ->)])].
    - rewrite jsonResponse_cors.
      repeat (apply elem_of_cons in Hin as [->|Hin]; [done|]).
      by apply elem_of_nil in Hin.
    - by rewrite tooManyRequests_cors, or_else_origin.
    - rewrite jsonResponse_cors.
      repeat (apply elem_of_cons in Hin as [->|Hin]; [done|]).
      by apply elem_of_nil in Hin. }
  destruct (validate config request w initial) as [outcome|pass] eqn:Hvalidate.
  - intros Herror.
    destruct (validate_leave _ _ _ _ _ Hvalidate) as (_ & _ & Hcases).
    destruct Hcases as [(Hin & _ & data & code & ->)
                       |(rl & _ & [(-> & _ & ->)|(Hhit & _)])].
    + rewrite jsonResponse_cors.
      repeat (apply elem_of_cons in Hin as [->|Hin]; [done|]).
      by apply elem_of_nil in Hin.
    + by rewrite tooManyRequests_cors, or_else_origin.
    + by rewrite Hhit in Herror.
  - intros Herror.
    destruct (forward_error _ _ _ _ Herror) as (Hexit & data & code & ->).
    rewrite jsonResponse_cors.
    by destruct (exit (forward pass request env w)).
Qed.

(** The statement applied to the sample request when the secret is not
    set. *)
Lemma error_response_cors_witness :
  is_error (exit (fetch APP_CONFIG sample_request ∅ sample_world ∅)) = true
  ∧ response_headers
      (response (fetch APP_CONFIG sample_request ∅ sample_world ∅))
      !! "Access-Control-Allow-Origin"
    = Some "*".
Proof.
  split; [reflexivity|].
  exact (error_response_cors APP_CONFIG sample_request ∅ sample_world ∅
           eq_refl).
Defined.

(** C8, as stated, fails.  The sample request comes from the whitelisted
    origin [http://localhost:5500] and passes the origin check; without the
    secret the handler answers 500 [Configuration error], and the
    Access-Control-Allow-Origin header of that answer is [*], not the
    origin. *)
Lemma configuration_error_cors_counterexample :
  headers sample_request !! "Origin" = Some "http://localhost:5500"
  ∧ (∃ pass, validate APP_CONFIG sample_request sample_world ∅ = inr pass
             ∧ origin pass = "http://localhost:5500")
  ∧ exit (fetch APP_CONFIG sample_request ∅ sample_world ∅)
    = ConfigurationError
  ∧ status (response (fetch APP_CONFIG sample_request ∅ sample_world ∅))
    = 500
  ∧ response_headers
      (response (fetch APP_CONFIG sample_request ∅ sample_world ∅))
      !! "Access-Control-Allow-Origin"
    = Some "*"
  ∧ response_headers
      (response (fetch APP_CONFIG sample_request ∅ sample_world ∅))
      !! "Access-Control-Allow-Origin"
    ≠ Some "http://localhost:5500".
Proof.
  split_and!; try reflexivity.
  - eexists. split; reflexivity.
  - discriminate.
Qed.

End handler.

(* ===================================================================== *)
(** * Properties of the upstream request *)
(* ===================================================================== *)

Section upstream_request.
Implicit Types (query clientQuery : list (string * string)).
Implicit Types (name value param field : string).
Implicit Types (obj allowedBody properties : list (string * json)).

Lemma get_filter_ne name param query :
  name ≠ param →
  searchParams_get name (filter (λ nv : string * string, nv.1 ≠ param) query)
  = searchParams_get name query.
Proof.
  intros Hne. induction query as [|[n v] query IH]; [done|].
  rewrite filter_cons. simpl. case_decide; simpl.
  - case_decide; [done|exact IH].
  - rewrite decide_False by congruence. exact IH.
Qed.

Lemma get_set_eq name value query :
  searchParams_get name (searchParams_set name value query) = Some value.
Proof.
  induction query as [|[n v] query IH]; simpl.
  - by rewrite decide_True.
  - case_decide; simpl; [by rewrite decide_True|].
    by rewrite decide_False.
Qed.

Lemma get_set_ne name param value query :
  name ≠ param →
  searchParams_get name (searchParams_set param value query)
  = searchParams_get name query.
Proof.
  intros Hne. induction query as [|[n v] query IH]; simpl.
  - by rewrite decide_False.
  - case_decide; simpl.
    + rewrite !decide_False by congruence. by apply get_filter_ne.
    + case_decide; [done|exact IH].
Qed.






















End upstream_request.

(* ===================================================================== *)
(** * Further properties of the rate limiter *)
(* ===================================================================== *)

Section rate_limiter_frame.
Implicit Types (store : gmap string RateLimitData) (now : Z) (rand : Q).

(** The entries of the other identifiers after a call: the store is the
    swept store, with the entry of the caller written or left. *)
Lemma check_lookup_other id now rand store k :
  k ≠ id →
  (checkRateLimit id now rand store).2 !! k
  = (if Qlt_le_dec rand (1 # 100) then cleanup now store else store) !! k.
Proof.
  intros Hne. unfold checkRateLimit.
  destruct ((if Qlt_le_dec rand (1 # 100) then cleanup now store
             else store) !! id) as [data|]; simpl.
  - destruct (decide (now > resetAt data)); simpl.
    { by rewrite lookup_insert_ne. }
    destruct (decide (count data >= 100)); simpl; [done|].
    by rewrite lookup_insert_ne.
  - by rewrite lookup_insert_ne.
Qed.

(** X1.  A call for one identifier does not change the entry of any other
    identifier: afterwards the other entry is as before, or it is gone,
    and it is gone only if the sweep ran ([Math.random() < 0.01]) and the
    entry had expired.  Without the sweep nothing but the caller's entry
    changes. *)
Theorem check_other_identifiers id now rand store k :
  k ≠ id →
  let after := (checkRateLimit id now rand store).2 in
  (after !! k = store !! k
   ∨ (after !! k = None
      ∧ (rand < 1 # 100)%Q
      ∧ ∃ d, store !! k = Some d ∧ now > resetAt d))
  ∧ (∀ d, store !! k = Some d → now <= resetAt d → after !! k = Some d)
  ∧ ((1 # 100 <= rand)%Q → after !! k = store !! k).
Proof.
  intros Hne after. subst after. rewrite (check_lookup_other _ _ _ _ _ Hne).
  destruct (Qlt_le_dec rand (1 # 100)) as [Hsweep|Hkeep].
  - split_and!.
    + destruct (store !! k) as [d|] eqn:Hk.
      * destruct (decide (now > resetAt d)) as [Hgt|Hle].
        -- right. split_and!; [|done|by eauto].
           apply cleanup_lookup_None. right. eauto.
        -- left. apply cleanup_lookup_Some. split; [done|lia].
      * left. apply cleanup_lookup_None. by left.
    + intros d Hk Hle. by apply cleanup_lookup_Some.
    + intros Hge. exfalso. by apply (Qlt_not_le _ _ Hsweep).
  - split_and!; [by left| |done]. by intros d Hk _.
Qed.

(** The statement applied to a call of another client while one client is
    at its limit. *)
Lemma check_other_identifiers_witness :
  "203.0.113.7" ≠ "198.51.100.2"
  ∧ (checkRateLimit "198.51.100.2" 2000 (1 # 1000)%Q store_at_limit).2
      !! "203.0.113.7"
    = Some {| count := 100; resetAt := 61000 |}.
Proof.
  assert ("203.0.113.7" ≠ "198.51.100.2") as Hne by discriminate.
  split; [exact Hne|].
  destruct (check_other_identifiers "198.51.100.2" 2000 (1 # 1000)%Q
              store_at_limit "203.0.113.7" Hne) as (_ & Hlive & _).
  apply Hlive; [reflexivity|simpl; lia].
Defined.

(** One call keeps the counters between 1 and the limit, and the number it
    reports as remaining is between 0 and the limit minus 1. *)
Lemma check_in_range id now rand store :
  counts_in_range store →
  counts_in_range (checkRateLimit id now rand store).2
  ∧ 0 <= remaining (checkRateLimit id now rand store).1 <= 99
  ∧ (allowed (checkRateLimit id now rand store).1 = false →
     remaining (checkRateLimit id now rand store).1 = 0).
Proof.
  intros Hinv. unfold checkRateLimit.
  pose proof (swept_lookup_Some now rand store) as HsS.
  set (swept := if Qlt_le_dec rand (1 # 100) then cleanup now store
                else store) in *.
  assert (counts_in_range swept) as Hinv'.
  { intros k d Hk. apply (Hinv k d). by apply HsS. }
  assert (∀ d0, 1 <= count d0 <= 100 → counts_in_range (<[id := d0]> swept))
    as Hins.
  { intros d0 Hd0 k d. destruct (decide (id = k)) as [->|Hne].
    - rewrite lookup_insert_eq. intros [= <-]. exact Hd0.
    - rewrite lookup_insert_ne by done. apply Hinv'. }
  destruct (swept !! id) as [data|] eqn:Hid; simpl.
  - pose proof (Hinv' id data Hid) as Hdata. simpl in Hdata.
    destruct (decide (now > resetAt data)); simpl.
    { split_and!; [apply Hins; simpl; lia|lia|lia|done]. }
    destruct (decide (count data >= 100)); simpl.
    + split_and!; [exact Hinv'|lia|lia|done].
    + split_and!; [apply Hins; simpl; lia|lia|lia|done].
  - split_and!; [apply Hins; simpl; lia|lia|lia|done].
Qed.

(** X2.  Whatever calls are made, for whatever identifiers and at whatever
    clock readings, starting from the empty store: every counter in the
    store stays between 1 and [maxRequests], every call reports a
    [remaining] between 0 and [maxRequests - 1], and a denied call reports
    0. *)
Theorem checkTrace_in_range (calls : list (string * Z * Q)) :
  counts_in_range (checkTrace calls ∅).2
  ∧ ∀ r, r ∈ (checkTrace calls ∅).1 →
      0 <= remaining r <= maxRequests RATE_LIMIT - 1
      ∧ (allowed r = false → remaining r = 0).
Proof.
  assert (∀ store, counts_in_range store →
            counts_in_range (checkTrace calls store).2
            ∧ ∀ r, r ∈ (checkTrace calls store).1 →
                0 <= remaining r <= 99
                ∧ (allowed r = false → remaining r = 0)) as Hgen.
  { induction calls as [|[[id now] rand] calls IH]; intros store Hinv.
    - split; [done|]. intros r Hin. by apply elem_of_nil in Hin.
    - destruct (check_in_range id now rand store Hinv)
        as (Hinv' & Hrange & Hdenied).
      simpl.
      destruct (checkRateLimit id now rand store) as [r0 store'] eqn:Hcheck.
      destruct (IH store' Hinv') as [Hfinal Hresults].
      destruct (checkTrace calls store') as [rs store''] eqn:Hrun.
      simpl in *. split; [exact Hfinal|].
      intros r [->|Hin]%elem_of_cons; [done|by apply Hresults]. }
  apply Hgen. intros k d Hk. by rewrite lookup_empty in Hk.
Qed.

(** X3.  After a call in which the sweep ran, the store holds no expired
    entry: every entry, the caller's included, has a reset time that is not
    before the clock reading of the call. *)
Theorem sweep_leaves_live_entries id now rand store :
  (rand < 1 # 100)%Q →
  ∀ k d, (checkRateLimit id now rand store).2 !! k = Some d →
         now <= resetAt d.
Proof.
  intros Hsweep k d. destruct (decide (k = id)) as [->|Hne].
  - unfold checkRateLimit.
    destruct (Qlt_le_dec rand (1 # 100)) as [_|Hge];
      [|exfalso; by apply (Qlt_not_le _ _ Hsweep)].
    destruct (cleanup now store !! id) as [data|] eqn:Hid; simpl.
    + apply cleanup_lookup_Some in Hid as [_ Hlive].
      destruct (decide (now > resetAt data)); simpl; [lia|].
      destruct (decide (count data >= 100)); simpl.
      * intros Hk. apply cleanup_lookup_Some in Hk as [_ ?]. done.
      * rewrite lookup_insert_eq. intros [= <-]. simpl. lia.
    + rewrite lookup_insert_eq. intros [= <-]. simpl. lia.
  - rewrite (check_lookup_other _ _ _ _ _ Hne).
    destruct (Qlt_le_dec rand (1 # 100)) as [_|Hge];
      [|exfalso; by apply (Qlt_not_le _ _ Hsweep)].
    by intros [_ ?]%cleanup_lookup_Some.
Qed.

(** The statement applied to a sweeping call at time 2000: the entry that
    expired at time 500 is gone. *)
Lemma sweep_leaves_live_entries_witness :
  (1 # 1000 < 1 # 100)%Q
  ∧ (checkRateLimit "198.51.100.2" 2000 (1 # 1000)%Q stale_store).2
      !! "192.0.2.1" = None.
Proof.
  assert (1 # 1000 < 1 # 100)%Q as Hsweep by reflexivity.
  split; [exact Hsweep|].
  destruct ((checkRateLimit "198.51.100.2" 2000 (1 # 1000)%Q stale_store).2
              !! "192.0.2.1") as [d|] eqn:Hk; [|done].
  pose proof (sweep_leaves_live_entries "198.51.100.2" 2000 (1 # 1000)%Q
                stale_store Hsweep _ _ Hk) as Hlive.
  assert (stale_store !! "192.0.2.1" = Some d) as Hbefore.
  { rewrite check_lookup_other in Hk by discriminate.
    by apply swept_lookup_Some in Hk. }
  vm_compute in Hbefore. injection Hbefore as <-. simpl in Hlive. lia.
Defined.

(** X4.  From any store: when an identifier has no entry, or its window is
    over at the clock reading [t0] of a call, that call opens a window with
    the full quota.  It and the calls that follow up to [t0 + windowMs] are
    answered as from the empty store: the first [maxRequests] are allowed,
    the [k]-th with [remaining = maxRequests - k], and the later ones are
    denied, all with reset time [t0 + windowMs]. *)
Theorem fresh_window_full_quota id t0 rand0 (rest : list (Z * Q)) store :
  (∀ d, store !! id = Some d → t0 > resetAt d) →
  Forall (λ call : Z * Q, call.1 <= t0 + windowMs RATE_LIMIT) rest →
  ∀ (k : nat) res,
    (checkMany id ((t0, rand0) :: rest) store).1 !! k = Some res →
    res = if decide (k < 100)%nat
          then {| allowed := true;
                  remaining := maxRequests RATE_LIMIT - (Z.of_nat k + 1);
                  resetAtOf := t0 + windowMs RATE_LIMIT |}
          else {| allowed := false; remaining := 0;
                  resetAtOf := t0 + windowMs RATE_LIMIT |}.
Proof.
  intros Hover Hall. simpl in Hall.
  assert (∃ store1,
            checkRateLimit id t0 rand0 store
            = ({| allowed := true; remaining := 99;
                  resetAtOf := t0 + 60000 |}, store1)
            ∧ store1 !! id = Some {| count := 1; resetAt := t0 + 60000 |})
    as (store1 & Hchk & Hk1).
  { destruct (store !! id) as [d|] eqn:Hid.
    - by apply (check_expired id t0 rand0 store d), Hover.
    - by apply check_fresh. }
  simpl. rewrite Hchk.
  destruct (checkMany_window id rest store1 1 (t0 + 60000) Hk1 Hall)
    as [Hres _].
  destruct (checkMany id rest store1) as [rs store2] eqn:Hrun.
  simpl in *. intros [|k] res Hlk; simpl in Hlk.
  - injection Hlk as <-. by rewrite decide_True by lia.
  - rewrite (Hres k res Hlk).
    destruct (decide (1 + Z.of_nat k < 100)), (decide (S k < 100)%nat);
      try lia; [f_equal; lia|done].
Qed.

(** The statement applied to the client whose window is over at time
    61001: its call at that time is allowed again. *)
Lemma fresh_window_full_quota_witness :
  (∀ d, stale_store !! "203.0.113.7" = Some d → 61001 > resetAt d)
  ∧ Forall (λ call : Z * Q, call.1 <= 61001 + windowMs RATE_LIMIT) []
  ∧ (checkMany "203.0.113.7" [(61001, (1 # 2)%Q)] stale_store).1 !! 0%nat
    = Some {| allowed := true; remaining := 99; resetAtOf := 121001 |}.
Proof.
  assert (∀ d, stale_store !! "203.0.113.7" = Some d → 61001 > resetAt d)
    as Hover.
  { intros d Hd. vm_compute in Hd. injection Hd as <-. simpl. lia. }
  split; [exact Hover|]. split; [constructor|].
  destruct ((checkMany "203.0.113.7" [(61001, (1 # 2)%Q)] stale_store).1
              !! 0%nat) as [res|] eqn:Hk.
  - f_equal.
    exact (fresh_window_full_quota "203.0.113.7" 61001 (1 # 2)%Q []
             stale_store Hover (Forall_nil_2 _) 0%nat res Hk).
  - apply lookup_ge_None in Hk. vm_compute in Hk. lia.
Defined.

End rate_limiter_frame.

(* ===================================================================== *)
(** * Further properties of route resolution *)
(* ===================================================================== *)

Set Warnings "-clear-no-such-hyp".

(** Closes a goal from a hypothesis that puts an exit in a list of other
    exits. *)
Ltac not_among H :=
  repeat (apply elem_of_cons in H as [H|H]; [discriminate H|]);
  by apply elem_of_nil in H.

Section routes.
Implicit Types (config : list (string * AppConfig)) (request : Request).
Implicit Types (env : gmap string string) (w : World).
Implicit Types (initial : gmap string RateLimitData).

Lemma split_nonempty sep s : split sep s ≠ [].
Proof.
  destruct s as [|c s]; simpl; [done|].
  destruct (Ascii.eqb c sep); [done|]. by destruct (split sep s).
Qed.

(** Splitting distributes over a separator. *)
Lemma split_app sep (a b : string) :
  split sep (a +:+ String sep b) = split sep a ++ split sep b.
Proof.
  induction a as [|c a IH]; simpl.
  - by rewrite Ascii.eqb_refl.
  - destruct (Ascii.eqb c sep); [by rewrite IH|].
    rewrite IH. pose proof (split_nonempty sep a).
    by destruct (split sep a).
Qed.

Lemma split_whole sep (s : string) :
  sep ∉ chars s → split sep s = [s].
Proof.
  induction s as [|c s IH]; simpl; [done|].
  intros [Hne Hout]%not_elem_of_cons.
  destruct (Ascii.eqb_spec c sep) as [->|_]; [done|].
  by rewrite IH.
Qed.

Lemma split_pieces sep (s : string) :
  Forall (λ piece, sep ∉ chars piece) (split sep s).
Proof.
  induction s as [|c s IH]; simpl.
  - repeat constructor. apply not_elem_of_nil.
  - destruct (Ascii.eqb_spec c sep) as [->|Hne].
    + constructor; [apply not_elem_of_nil|exact IH].
    + pose proof (split_nonempty sep s).
      destruct (split sep s) as [|piece pieces]; [done|].
      apply Forall_cons in IH as [Hpiece Hpieces].
      constructor; [|done]. simpl.
      apply not_elem_of_cons. split; [congruence|done].
Qed.

Lemma pathPartsOf_app (a b : string) :
  pathPartsOf (a +:+ String "/"%char b) = pathPartsOf a ++ pathPartsOf b.
Proof. unfold pathPartsOf. by rewrite split_app, filter_app. Qed.

Lemma pathPartsOf_segment (part : string) :
  part ≠ "" → "/"%char ∉ chars part → pathPartsOf part = [part].
Proof.
  intros Hne Hout. unfold pathPartsOf. rewrite split_whole by done.
  rewrite filter_cons. by rewrite decide_True.
Qed.

(** X5.  The path segments that the route is read from are never empty and
    never contain a slash; and a path written as a slash followed by
    segments joined with slashes, with or without a slash at the end, is
    read back as exactly those segments. *)
Theorem pathParts_round_trip :
  (∀ pathname,
     Forall (λ part, part ≠ "" ∧ "/"%char ∉ chars part)
       (pathPartsOf pathname))
  ∧ ∀ parts,
      Forall (λ part, part ≠ "" ∧ "/"%char ∉ chars part) parts →
      pathPartsOf (String "/"%char (join_slash parts)) = parts
      ∧ pathPartsOf (String "/"%char (join_slash parts) +:+ "/") = parts.
Proof.
  split.
  - intros pathname. unfold pathPartsOf. apply Forall_forall.
    intros part [Hne Hin]%list_elem_of_filter. split; [done|].
    pose proof (split_pieces "/"%char pathname) as Hpieces.
    rewrite Forall_forall in Hpieces. by apply Hpieces.
  - intros parts Hparts.
    assert (pathPartsOf (join_slash parts) = parts) as Hjoin.
    { induction Hparts as [|part parts [Hne Hout] Hparts IH]; [done|].
      destruct parts as [|part' parts].
      - by apply pathPartsOf_segment.
      - change (join_slash (part :: part' :: parts))
          with (part +:+ String "/"%char (join_slash (part' :: parts))).
        rewrite pathPartsOf_app, IH. by rewrite pathPartsOf_segment. }
    assert (pathPartsOf (String "/"%char (join_slash parts)) = parts)
      as Hlead.
    { change (String "/"%char (join_slash parts))
        with ("" +:+ String "/"%char (join_slash parts)).
      by rewrite pathPartsOf_app, Hjoin. }
    split; [exact Hlead|].
    rewrite pathPartsOf_app, Hlead. apply app_nil_r.
Qed.

(** The statement applied to the path of the weather API. *)
Lemma pathParts_round_trip_witness :
  Forall (λ part, part ≠ "" ∧ "/"%char ∉ chars part) ["myblog"; "weather"]
  ∧ pathPartsOf "/myblog/weather" = ["myblog"; "weather"]
  ∧ pathPartsOf "/myblog/weather/" = ["myblog"; "weather"].
Proof.
  assert (Forall (λ part, part ≠ "" ∧ "/"%char ∉ chars part)
            ["myblog"; "weather"]) as Hparts.
  { repeat constructor; try discriminate;
      simpl; rewrite !not_elem_of_cons; split_and!; try discriminate;
      apply not_elem_of_nil. }
  split; [exact Hparts|].
  exact (proj2 pathParts_round_trip ["myblog"; "weather"] Hparts).
Defined.





(** A response given before the rate limiter does not depend on the
    world. *)
Lemma validate_early config request w initial outcome :
  validate config request w initial = inl outcome →
  exit outcome ∈ [InvalidRoute; UnknownApp; UnknownApi; Forbidden] →
  store_after outcome = initial
  ∧ ∀ w', validate config request w' initial = inl outcome.
Proof.
  unfold validate.
  destruct (filter _ _) as [|app [|api rest]];
    [by intros [= <-]; split..|].
  destruct (property app config) as [appConfig|];
    [|by intros [= <-]; split].
  destruct (property api (apis appConfig)) as [api_config|];
    [|by intros [= <-]; split].
  destruct (isAllowed appConfig _ _); simpl; [|by intros [= <-]; split].
  destruct (checkRateLimit _ _ _ _) as [rl after].
  destruct (allowed rl); simpl.
  - destruct (cache_enabled api_config); [|done].
    destruct (cache_match w request); [|done].
    intros [= <-] Hin. simpl in Hin. not_among Hin.
  - intros [= <-] Hin. simpl in Hin. not_among Hin.
Qed.

(** The caller has an entry after every call. *)
Lemma check_entry id now rand (store : gmap string RateLimitData) :
  is_Some ((checkRateLimit id now rand store).2 !! id).
Proof.
  unfold checkRateLimit.
  destruct ((if Qlt_le_dec rand (1 # 100) then cleanup now store
             else store) !! id) as [data|] eqn:Hid; simpl.
  - destruct (decide (now > resetAt data)); simpl.
    { rewrite lookup_insert_eq. eauto. }
    destruct (decide (count data >= 100)); simpl; [by eauto|].
    rewrite lookup_insert_eq. eauto.
  - rewrite lookup_insert_eq. eauto.
Qed.

(** A route that stops at a member of [Object.prototype], by the place
    where it stops. *)
Lemma prototypeRoute_cases config request env w initial outcome :
  prototypeRoute config request env w initial = Some outcome →
  let broken :=
    ∃ app api rest,
      pathPartsOf (pathname (url request)) = app :: api :: rest
      ∧ property app config = None ∧ app ∈ object_prototype in
  (broken ∧ exit outcome = InternalError ∧ store_after outcome = initial
   ∧ ∀ env' w', prototypeRoute config request env' w' initial = Some outcome)
  ∨ (¬ broken ∧ exit outcome = Forbidden ∧ store_after outcome = initial
     ∧ ∀ env' w', prototypeRoute config request env' w' initial
                  = Some outcome)
  ∨ (¬ broken
     ∧ exit outcome ∈ [RateLimited; ConfigurationError; InternalError]
     ∧ store_after outcome
       = (checkRateLimit (rateLimitKeyOf request) (clock w) (random w)
            initial).2).
Proof.
  unfold prototypeRoute, rateLimitKeyOf.
  fold (pathPartsOf (pathname (url request))).
  destruct (pathPartsOf (pathname (url request)))
    as [|app [|api rest]]; [done..|].
  destruct (property app config) as [appConfig|] eqn:Happ.
  2: { case_decide; [|done]. intros [= <-]. left.
       split; [by exists app, api, rest|]. by split_and!. }
  assert (¬ ∃ app' api' rest',
            app :: api :: rest = app' :: api' :: rest'
            ∧ property app' config = None ∧ app' ∈ object_prototype)
    as Hsound.
  { intros (? & ? & ? & [= <- <- <-] & ? & _). congruence. }
  destruct (property api (apis appConfig)); [done|].
  case_decide; [|done].
  destruct (isAllowed appConfig _ _); simpl.
  2: { intros [= <-]. right; left. by split_and!. }
  destruct (checkRateLimit _ _ _ _) as [rl after].
  destruct (allowed rl); simpl.
  - destruct (env !! "undefined"); [case_decide|]; intros [= <-];
      right; right; (split; [done|]); simpl; (split; [|done]);
      by repeat constructor.
  - intros [= <-]. right; right. split; [done|]. simpl. split; [|done].
    by repeat constructor.
Qed.

(** X7.  Which requests are counted by the rate limiter.  A preflight, a
    request turned away by route resolution or by the origin check, and a
    request whose first segment names no app but a member of
    [Object.prototype] (answered with 500 [Internal server error]) leave
    the store as it was, reach neither the upstream server nor the cache,
    and get an answer that depends on nothing but the request and the
    configuration.  Every other request has been counted: the store is the
    one left by one call of [checkRateLimit] for the client address, which
    has an entry afterwards; this includes the requests answered with 429,
    from the cache, and with the errors 500, 502 and 504. *)
Theorem quota_accounting config request env w initial :
  let outcome := fetch config request env w initial in
  let early :=
    exit outcome
    ∈ [Preflight; InvalidRoute; UnknownApp; UnknownApi; Forbidden] in
  let broken :=
    method request ≠ "OPTIONS"
    ∧ ∃ app api rest,
        pathPartsOf (pathname (url request)) = app :: api :: rest
        ∧ property app config = None ∧ app ∈ object_prototype in
  (early ∨ broken →
     store_after outcome = initial
     ∧ sent outcome = None
     ∧ stored outcome = None
     ∧ ∀ env' w', fetch config request env' w' initial = outcome)
  ∧ (broken → exit outcome = InternalError)
  ∧ (¬ early → ¬ broken →
     store_after outcome
     = (checkRateLimit (rateLimitKeyOf request) (clock w) (random w)
          initial).2
     ∧ is_Some (store_after outcome !! rateLimitKeyOf request)).
Proof.
  intros outcome early broken. subst outcome early broken. unfold fetch.
  case_decide as Hmethod.
  { split_and!.
    - done.
    - by intros [? _].
    - intros Hout. exfalso. apply Hout. simpl. by repeat constructor. }
  destruct (prototypeRoute config request env w initial) as [outcome|]
    eqn:Hproto.
  { destruct (prototypeRoute_leave _ _ _ _ _ _ Hproto) as (Hsent & Hstored & _).
    destruct (prototypeRoute_cases _ _ _ _ _ _ Hproto)
      as [(Hbroken & Hexit & Hstore & Hworld)
         |[(Hsound & Hexit & Hstore & Hworld)|(Hsound & Hin & Hstore)]].
    - split_and!.
      + intros _. split_and!; [done..|]. intros env' w'. by rewrite Hworld.
      + done.
      + intros _ Hout. exfalso. by apply Hout.
    - split_and!.
      + intros _. split_and!; [done..|]. intros env' w'. by rewrite Hworld.
      + by intros [_ ?].
      + intros Hout. exfalso. apply Hout. rewrite Hexit.
        by repeat constructor.
    - split_and!.
      + intros [Hearly|[_ ?]]; [|done]. exfalso.
        repeat (apply elem_of_cons in Hin as [Hin|Hin];
                [rewrite Hin in Hearly; not_among Hearly|]).
        by apply elem_of_nil in Hin.
      + by intros [_ ?].
      + intros _ _. split; [done|]. rewrite Hstore. apply check_entry. }
  assert (¬ ∃ app api rest,
            pathPartsOf (pathname (url request)) = app :: api :: rest
            ∧ property app config = None ∧ app ∈ object_prototype)
    as Hsound.
  { intros (app & api & rest & Hparts & Happ & Hin). revert Hproto.
    unfold prototypeRoute. fold (pathPartsOf (pathname (url request))).
    rewrite Hparts, Happ. by rewrite decide_True. }
  assert (∀ env' w', prototypeRoute config request env' w' initial = None)
    as Hnone.
  { intros env' w'. by apply (prototypeRoute_none _ _ _ _ _ Hproto). }
  destruct (validate config request w initial) as [outcome|pass] eqn:Hv.
  - destruct (validate_leave _ _ _ _ _ Hv) as (Hsent & Hstored & Hcases).
    split_and!.
    + intros [Hin|[_ ?]]; [|done].
      assert (exit outcome
                ∈ [InvalidRoute; UnknownApp; UnknownApi; Forbidden])
        as Hearly.
      { apply elem_of_cons in Hin as [Hpre|Hin]; [|done].
        destruct Hcases as [(Hin & _)|(rl & _ & [(He & _)|(He & _)])].
        - rewrite Hpre in Hin. not_among Hin.
        - congruence.
        - congruence. }
      destruct (validate_early _ _ _ _ _ Hv Hearly) as [Hstore Hworld].
      split_and!; [done..|]. intros env' w'. by rewrite Hnone, Hworld.
    + by intros [_ ?].
    + intros Hout _.
      destruct Hcases as [(Hin & _)|(rl & Hcheck & _)].
      { exfalso. apply Hout. by apply list_elem_of_further. }
      pose proof (check_entry (rateLimitKeyOf request) (clock w) (random w)
                    initial) as Hentry.
      rewrite Hcheck in *. by split.
  - pose proof (forward_exit pass request env w) as Hlate.
    rewrite forward_store.
    destruct (validate_pass _ _ _ _ _ Hv)
      as (_ & _ & _ & _ & _ & _ & _ & Hcheck & _).
    split_and!.
    + intros [Hin|[_ ?]]; [|done]. exfalso.
      repeat (apply elem_of_cons in Hlate as [Hlate|Hlate];
              [rewrite Hlate in Hin; not_among Hin|]).
      by apply elem_of_nil in Hlate.
    + by intros [_ ?].
    + intros _ _.
      pose proof (check_entry (rateLimitKeyOf request) (clock w) (random w)
                    initial) as Hentry.
      rewrite Hcheck in *. by split.
Qed.

(** The statement applied to a request from a foreign origin and to a
    request whose first segment is [constructor], while the client is at
    its limit, and to the sample request when the upstream server is
    unreachable. *)
Lemma quota_accounting_witness :
  store_after (fetch APP_CONFIG foreign_request sample_env sample_world
                 store_at_limit) = store_at_limit
  ∧ store_after (fetch APP_CONFIG inherited_app_request sample_env
                   sample_world store_at_limit) = store_at_limit
  ∧ store_after (fetch APP_CONFIG sample_request sample_env
                   unreachable_world ∅) !! "unknown"
    = Some {| count := 1; resetAt := 61000 |}.
Proof.
  split_and!.
  - destruct (quota_accounting APP_CONFIG foreign_request sample_env
                sample_world store_at_limit) as [Hearly _].
    destruct Hearly as (Hstore & _); [|exact Hstore]. left.
    assert (exit (fetch APP_CONFIG foreign_request sample_env sample_world
                    store_at_limit) = Forbidden) as -> by reflexivity.
    by repeat constructor.
  - destruct (quota_accounting APP_CONFIG inherited_app_request sample_env
                sample_world store_at_limit) as [Hearly _].
    destruct Hearly as (Hstore & _); [|exact Hstore]. right.
    split; [discriminate|]. exists "constructor", "weather", [].
    split_and!; [done..|]. by repeat constructor.
  - destruct (quota_accounting APP_CONFIG sample_request sample_env
                unreachable_world ∅) as (_ & _ & Hcounted).
    destruct Hcounted as [-> _]; [| |reflexivity].
    + assert (exit (fetch APP_CONFIG sample_request sample_env
                      unreachable_world ∅) = BadGateway) as -> by reflexivity.
      intros Hin. not_among Hin.
    + intros [_ (app & api & rest & [= <- <- <-] & [=] & _)].
Defined.

End routes.

(* ===================================================================== *)
(** * Further properties of the responses *)
(* ===================================================================== *)

Section responses.
Implicit Types (config : list (string * AppConfig)) (request : Request).
Implicit Types (env : gmap string string) (w : World).
Implicit Types (initial : gmap string RateLimitData).

(** [ceil_div_1000] is the ceiling of the quotient by 1000. *)
Lemma ceil_div_1000_spec (a : Z) :
  1000 * (ceil_div_1000 a - 1) < a <= 1000 * ceil_div_1000 a.
Proof.
  unfold ceil_div_1000.
  pose proof (Z.div_mod (- a) 1000 ltac:(lia)).
  pose proof (Z.mod_pos_bound (- a) 1000 ltac:(lia)). lia.
Qed.

(** A denied call found an entry at the limit and inside its window, and
    left it. *)
Lemma check_denied id now rand (before after : gmap string RateLimitData)
    rl :
  checkRateLimit id now rand before = (rl, after) →
  allowed rl = false →
  ∃ entry,
    before !! id = Some entry
    ∧ maxRequests RATE_LIMIT <= count entry
    ∧ now <= resetAt entry
    ∧ after !! id = Some entry
    ∧ rl = {| allowed := false; remaining := 0;
              resetAtOf := resetAt entry |}.
Proof.
  unfold checkRateLimit.
  pose proof (swept_lookup_Some now rand before id) as HsS.
  destruct ((if Qlt_le_dec rand (1 # 100) then cleanup now before
             else before) !! id) as [data|] eqn:Hid; [|by intros [= <- <-]].
  destruct (decide (now > resetAt data)); [by intros [= <- <-]|].
  destruct (decide (count data >= maxRequests RATE_LIMIT));
    [|by intros [= <- <-]].
  intros [= <- <-] _. exists data. split_and!; [by apply HsS|lia|lia|done..].
Qed.

(** X8.  The 429 answer.  The handler answers 429 only to a client whose
    entry was at the limit and inside its window; the entry is left as it
    was, no upstream call is made and nothing is cached.  [Retry-After]
    and the [retryAfter] field are the number of whole seconds, rounded
    up, from the second clock reading to the reset time of the window:
    not negative when that reading is not after the reset time, and at
    most 60 when it is not earlier than a window before it. *)
Theorem rate_limited_response config request env w initial :
  let outcome := fetch config request env w initial in
  let h := response_headers (response outcome) in
  exit outcome = RateLimited →
  ∃ entry resetIn,
    initial !! rateLimitKeyOf request = Some entry
    ∧ maxRequests RATE_LIMIT <= count entry
    ∧ clock w <= resetAt entry
    ∧ store_after outcome !! rateLimitKeyOf request = Some entry
    ∧ 1000 * (resetIn - 1) < resetAt entry - clock_retry w <= 1000 * resetIn
    ∧ (clock_retry w <= resetAt entry → 0 <= resetIn)
    ∧ (resetAt entry - windowMs RATE_LIMIT <= clock_retry w → resetIn <= 60)
    ∧ status (response outcome) = 429
    ∧ h !! "Retry-After" = Some (pretty resetIn)
    ∧ h !! "X-RateLimit-Limit" = Some "100"
    ∧ h !! "X-RateLimit-Remaining" = Some "0"
    ∧ h !! "X-RateLimit-Reset" = Some (pretty (resetAt entry))
    ∧ body (response outcome)
      = JsonBody
          (JObj [ ("error", JStr "Too Many Requests");
                  ("message",
                   JStr ("Rate limit exceeded. Try again in "
                         +:+ pretty resetIn +:+ " seconds."));
                  ("retryAfter", JNum resetIn) ])
    ∧ sent outcome = None
    ∧ stored outcome = None.
Proof.
  intros outcome h. subst outcome h. unfold fetch. case_decide; [done|].
  destruct (prototypeRoute config request env w initial) as [outcome|]
    eqn:Hproto.
  { intros Hexit.
    destruct (prototypeRoute_leave _ _ _ _ _ _ Hproto)
      as (Hsent & Hstored & Hcases).
    destruct Hcases as [(Hin & _)|(rl & Hcheck & Hcases)].
    { rewrite Hexit in Hin. not_among Hin. }
    destruct Hcases as [(_ & Hdenied & Hresponse)|(Hin & _)];
      [|rewrite Hexit in Hin; not_among Hin].
    destruct (check_denied _ _ _ _ _ _ Hcheck Hdenied)
      as (entry & Hbefore & Hfull & Hlive & Hafter & ->).
    exists entry, (ceil_div_1000 (resetAt entry - clock_retry w)).
    pose proof (ceil_div_1000_spec (resetAt entry - clock_retry w)).
    rewrite Hresponse. simpl in *.
    split_and!; try done; try lia. }
  destruct (validate config request w initial) as [outcome|pass] eqn:Hv.
  - intros Hexit.
    destruct (validate_leave _ _ _ _ _ Hv) as (Hsent & Hstored & Hcases).
    destruct Hcases as [(Hin & _)|(rl & Hcheck & Hcases)].
    { rewrite Hexit in Hin. not_among Hin. }
    destruct Hcases as [(_ & Hdenied & Hresponse)|(Hhit & _)];
      [|congruence].
    destruct (check_denied _ _ _ _ _ _ Hcheck Hdenied)
      as (entry & Hbefore & Hfull & Hlive & Hafter & ->).
    exists entry, (ceil_div_1000 (resetAt entry - clock_retry w)).
    pose proof (ceil_div_1000_spec (resetAt entry - clock_retry w)).
    rewrite Hresponse. simpl in *.
    split_and!; try done; try lia.
  - intros Hexit. pose proof (forward_exit pass request env w) as Hin.
    rewrite Hexit in Hin. not_among Hin.
Qed.

(** The statement applied to the client at its limit, 1.5 seconds into the
    window that ends at time 61000. *)
Lemma rate_limited_response_witness :
  exit (fetch APP_CONFIG limited_request sample_env sample_world
          store_at_limit) = RateLimited
  ∧ response_headers
      (response (fetch APP_CONFIG limited_request sample_env sample_world
                   store_at_limit)) !! "Retry-After"
    = Some "60".
Proof.
  assert (exit (fetch APP_CONFIG limited_request sample_env sample_world
                  store_at_limit) = RateLimited) as Hexit by reflexivity.
  split; [exact Hexit|].
  destruct (rate_limited_response APP_CONFIG limited_request sample_env
              sample_world store_at_limit Hexit)
    as (entry & resetIn & Hentry & _ & _ & _ & Hceil & _ & _ & _ & -> & _).
  vm_compute in Hentry. injection Hentry as <-. simpl in Hceil.
  by replace resetIn with 60 by lia.
Defined.

(** What the stages from secret resolution on did when they return the
    upstream response. *)
Lemma forward_forwarded pass request env w :
  exit (forward pass request env w) = Forwarded →
  ∃ proxyRequest apiResponse,
    sent (forward pass request env w) = Some proxyRequest
    ∧ upstream w proxyRequest = Resolved apiResponse
    ∧ response (forward pass request env w)
      = addCORSHeaders (proxied pass apiResponse) (origin pass)
    ∧ stored (forward pass request env w)
      = if cache_enabled (apiConfig pass) && ok apiResponse
        then Some (request, proxied pass apiResponse) else None.
Proof.
  unfold forward.
  destruct (env !! secret (apiConfig pass)) as [secretValue|]; [|done].
  case_decide; [done|].
  destruct (proxyRequestOf _ _ _) as [error|proxyRequest]; [done|].
  destruct (upstream w proxyRequest) as [apiResponse|fetchError] eqn:Hup.
  - intros _. by exists proxyRequest, apiResponse.
  - by case_decide.
Qed.

(** X9.  The answer on a miss.  When the handler returns the upstream
    response, the upstream call was made and resolved, and the answer has
    the status and the text of the upstream response, whatever the status
    is (an upstream 404 or 500 is passed on as such).  Its headers name the
    app and the API by the first two path segments, mark the miss, carry
    the rate-limit numbers of this request, the upstream content type or
    [application/json], a [Cache-Control] that follows the cache lifetime
    of the API, and Access-Control-Allow-Origin with the Origin header of
    the request or [*]. *)
Theorem forwarded_response config request env w initial :
  let outcome := fetch config request env w initial in
  let h := response_headers (response outcome) in
  exit outcome = Forwarded →
  ∃ pass proxyRequest apiResponse rest,
    validate config request w initial = inr pass
    ∧ pathPartsOf (pathname (url request))
      = appName pass :: apiName pass :: rest
    ∧ sent outcome = Some proxyRequest
    ∧ upstream w proxyRequest = Resolved apiResponse
    ∧ status (response outcome) = api_status apiResponse
    ∧ body (response outcome) = TextBody (api_text apiResponse)
    ∧ h !! "X-StatEnv-App" = Some (appName pass)
    ∧ h !! "X-StatEnv-API" = Some (apiName pass)
    ∧ h !! "X-Cache" = Some "MISS"
    ∧ h !! "X-RateLimit-Limit" = Some "100"
    ∧ h !! "X-RateLimit-Remaining"
      = Some (pretty (remaining (rateLimit pass)))
    ∧ h !! "X-RateLimit-Reset" = Some (pretty (resetAtOf (rateLimit pass)))
    ∧ h !! "Content-Type"
      = Some (or_else (api_headers apiResponse !! "Content-Type")
                "application/json")
    ∧ h !! "Cache-Control"
      = Some match cache (apiConfig pass) with
             | Some ttl =>
                 if decide (ttl = 0) then "no-cache"
                 else "public, max-age=" +:+ pretty ttl
             | None => "no-cache"
             end
    ∧ h !! "Access-Control-Allow-Origin"
      = Some (or_else (headers request !! "Origin") "*")
    ∧ h !! "Access-Control-Allow-Methods" = Some "GET, POST, OPTIONS".
Proof.
  intros outcome h. subst outcome h. unfold fetch. case_decide; [done|].
  destruct (prototypeRoute config request env w initial) as [outcome|]
    eqn:Hproto.
  { intros Hexit. apply prototypeRoute_exit in Hproto as Hin.
    rewrite Hexit in Hin. not_among Hin. }
  destruct (validate config request w initial) as [outcome|pass] eqn:Hv.
  - intros Hexit.
    destruct (validate_leave _ _ _ _ _ Hv) as (_ & _ & Hcases).
    destruct Hcases as [(Hin & _)|(rl & _ & [(He & _)|(He & _)])];
      [|congruence..].
    rewrite Hexit in Hin. not_among Hin.
  - intros Hexit.
    destruct (forward_forwarded _ _ _ _ Hexit)
      as (proxyRequest & apiResponse & Hsent & Hup & -> & _).
    destruct (validate_pass _ _ _ _ _ Hv)
      as (appConfig & rest & Hparts & _ & _ & Horigin & _).
    exists pass, proxyRequest, apiResponse, rest.
    split_and!; try done.
    + unfold addCORSHeaders, proxied, headers_set. simpl.
      rewrite !lookup_insert_ne by done.
      unfold cache_enabled.
      destruct (cache (apiConfig pass)) as [ttl|]; [|reflexivity].
      destruct (decide (ttl = 0)) as [->|Hne]; [reflexivity|].
      by rewrite bool_decide_eq_true_2.
    + unfold addCORSHeaders, headers_set. cbn [response_headers].
      rewrite lookup_insert_ne by done. rewrite lookup_insert_eq.
      by rewrite Horigin, or_else_origin.
Qed.

(** The statement applied to the sample request when the upstream server
    answers 500: the failure is passed on, with the CORS header. *)
Lemma forwarded_response_witness :
  exit (fetch APP_CONFIG sample_request sample_env failing_world ∅)
  = Forwarded
  ∧ status (response (fetch APP_CONFIG sample_request sample_env
                        failing_world ∅)) = 500
  ∧ body (response (fetch APP_CONFIG sample_request sample_env
                      failing_world ∅)) = TextBody "upstream failure".
Proof.
  assert (exit (fetch APP_CONFIG sample_request sample_env failing_world ∅)
          = Forwarded) as Hexit by reflexivity.
  split; [exact Hexit|].
  destruct (forwarded_response APP_CONFIG sample_request sample_env
              failing_world ∅ Hexit)
    as (pass & proxyRequest & apiResponse & rest & _ & _ & _ & Hup
        & -> & -> & _).
  simpl in Hup. by injection Hup as <-.
Defined.

Lemma or_else_star (v : option string) :
  or_else v "*" = "*" ∨ ∃ o, v = Some o ∧ o ≠ "" ∧ or_else v "*" = o.
Proof.
  destruct v as [o|]; simpl; [|by left].
  case_decide; [by left|right; eauto].
Qed.

(** X10.  Every response of the handler, on every path, carries an
    Access-Control-Allow-Origin header, and its value is either [*] or the
    non-empty value of the Origin header of the request; the Referer is
    never echoed. *)
Theorem every_response_has_cors config request env w initial :
  let h := response_headers (response (fetch config request env w initial)) in
  h !! "Access-Control-Allow-Origin" = Some "*"
  ∨ ∃ o, headers request !! "Origin" = Some o ∧ o ≠ ""
         ∧ h !! "Access-Control-Allow-Origin" = Some o.
Proof.
  intros h. subst h.
  assert (∀ r, response_headers
                 (addCORSHeaders r (or_else (headers request !! "Origin") ""))
                 !! "Access-Control-Allow-Origin"
               = Some (or_else (headers request !! "Origin") "*")) as Hadd.
  { intros r. unfold addCORSHeaders, headers_set. cbn [response_headers].
    rewrite lookup_insert_ne by done. rewrite lookup_insert_eq.
    by rewrite or_else_origin. }
  assert (∀ value : string,
            value = or_else (headers request !! "Origin") "*" →
            Some value = Some "*"
            ∨ ∃ o, headers request !! "Origin" = Some o ∧ o ≠ ""
                   ∧ Some value = Some o) as Hcases.
  { intros value ->.
    destruct (or_else_star (headers request !! "Origin"))
      as [->|(o & Ho & Hne & ->)]; [by left|right; eauto]. }
  unfold fetch. case_decide.
  { apply Hcases. reflexivity. }
  destruct (prototypeRoute config request env w initial) as [outcome|]
    eqn:Hproto.
  { destruct (prototypeRoute_leave _ _ _ _ _ _ Hproto) as (_ & _ & Hleave).
    destruct Hleave as [(_ & _ & data & code & ->)
                       |(rl & _ & [(_ & _ & ->)|(_ & _ & data & ->)])].
    - by left.
    - rewrite tooManyRequests_cors, or_else_origin. by apply Hcases.
    - by left. }
  destruct (validate config request w initial) as [outcome|pass] eqn:Hv.
  - destruct (validate_leave _ _ _ _ _ Hv) as (_ & _ & Hleave).
    destruct Hleave as [(_ & _ & data & code & ->)
                       |(rl & _ & [(_ & _ & ->)
                                  |(_ & _ & cached & _ & ->)])].
    + by left.
    + rewrite tooManyRequests_cors, or_else_origin. by apply Hcases.
    + unfold cacheHit. rewrite Hadd. by apply Hcases.
  - destruct (validate_pass _ _ _ _ _ Hv)
      as (_ & _ & _ & _ & _ & Horigin & _).
    destruct (is_error (exit (forward pass request env w))) eqn:Herror.
    + destruct (forward_error _ _ _ _ Herror) as (_ & data & code & ->).
      by left.
    + pose proof (forward_exit pass request env w) as Hin.
      assert (exit (forward pass request env w) = Forwarded) as Hexit.
      { repeat (apply elem_of_cons in Hin as [Hin|Hin];
                [by rewrite Hin in Herror|]).
        by apply elem_of_nil in Hin. }
      destruct (forward_forwarded _ _ _ _ Hexit)
        as (proxyRequest & apiResponse & _ & _ & -> & _).
      rewrite Horigin, Hadd. by apply Hcases.
Qed.

Lemma forward_stored_response pass request env w entry :
  stored (forward pass request env w) = Some entry →
  ∃ apiResponse,
    entry = (request, proxied pass apiResponse)
    ∧ cache_enabled (apiConfig pass) = true
    ∧ response (forward pass request env w)
      = addCORSHeaders (proxied pass apiResponse) (origin pass).
Proof.
  unfold forward.
  destruct (env !! secret (apiConfig pass)) as [secretValue|]; [|done].
  case_decide; [done|].
  destruct (proxyRequestOf _ _ _) as [error|proxyRequest]; [done|].
  destruct (upstream w proxyRequest) as [apiResponse|fetchError].
  - simpl. destruct (cache_enabled (apiConfig pass)); [|done].
    destruct (ok apiResponse); [|done]. simpl.
    intros [= <-]. by exists apiResponse.
  - by case_decide.
Qed.

(** X11.  A miss followed by a hit.  Let a request be answered from
    upstream and its response be handed to [cache.put].  When the same
    request comes again and the cache returns what was stored, the handler
    either answers 429 or answers from the cache, whatever the secrets and
    the upstream server are by then; and the answer from the cache has the
    status and the body of the first answer, is marked [X-Cache: HIT],
    makes no upstream call, and has the content type, the cache control,
    the app and API names and the CORS headers of the first answer. *)
Theorem miss_then_hit config request env env' w w' initial entry :
  let first := fetch config request env w initial in
  stored first = Some entry →
  cache_match w' entry.1 = Some entry.2 →
  let second := fetch config request env' w' (store_after first) in
  entry.1 = request
  ∧ (exit second = CacheHit ∨ exit second = RateLimited)
  ∧ (exit second = CacheHit →
       status (response second) = status (response first)
       ∧ body (response second) = body (response first)
       ∧ sent second = None
       ∧ response_headers (response second) !! "X-Cache" = Some "HIT"
       ∧ ∀ name,
           name ∈ ["Content-Type"; "Cache-Control"; "X-StatEnv-App";
                   "X-StatEnv-API"; "Access-Control-Allow-Origin";
                   "Access-Control-Allow-Methods"] →
           response_headers (response second) !! name
           = response_headers (response first) !! name).
Proof.
  intros first. subst first. unfold fetch.
  case_decide as Hmethod; [done|].
  destruct (prototypeRoute config request env w initial) as [outcome|]
    eqn:Hproto.
  { intros Hstored.
    destruct (prototypeRoute_leave _ _ _ _ _ _ Hproto) as (_ & Hnone & _).
    congruence. }
  destruct (validate config request w initial) as [outcome|pass] eqn:Hv.
  { intros Hstored.
    destruct (validate_leave _ _ _ _ _ Hv) as (_ & Hnone & _). congruence. }
  intros Hstored Hmatch.
  rewrite (prototypeRoute_none _ _ _ _ _ Hproto).
  destruct (forward_stored_response _ _ _ _ _ Hstored)
    as (apiResponse & -> & Hcache & Hresponse).
  simpl in Hmatch. rewrite Hresponse, forward_store.
  destruct (validate_pass _ _ _ _ _ Hv)
    as (appConfig & rest & Hparts & Happ & Hapi & Horigin & Hallowed & _).
  rewrite Horigin in Hallowed.
  split; [done|].
  unfold validate. rewrite Hparts, Happ, Hapi, Hallowed. simpl.
  destruct (checkRateLimit _ _ _ _) as [rl after].
  destruct (allowed rl); simpl; [|split; [by right|done]].
  rewrite Hcache, Hmatch. simpl. split; [by left|]. intros _.
  split_and!; try done.
  intros name Hname. rewrite Horigin.
  unfold cacheHit, addCORSHeaders, headers_set. cbn [response_headers].
  repeat (apply elem_of_cons in Hname as [->|Hname];
          [repeat (rewrite lookup_insert_eq
                   || rewrite lookup_insert_ne by done);
           by rewrite ?Hcache|]).
  by apply elem_of_nil in Hname.
Qed.

(** The statement applied to the sample request: answered from upstream
    first, then from the cache while the upstream server is unreachable
    and the secret is gone. *)
Lemma miss_then_hit_witness :
  stored (fetch APP_CONFIG sample_request sample_env sample_world ∅)
  = Some (sample_request, stored_weather)
  ∧ cache_match replay_world sample_request = Some stored_weather
  ∧ exit (fetch APP_CONFIG sample_request ∅ replay_world
            (store_after (fetch APP_CONFIG sample_request sample_env
                            sample_world ∅))) = CacheHit
  ∧ body (response
            (fetch APP_CONFIG sample_request ∅ replay_world
               (store_after (fetch APP_CONFIG sample_request sample_env
                               sample_world ∅)))) = TextBody "{}".
Proof.
  assert (stored (fetch APP_CONFIG sample_request sample_env sample_world ∅)
          = Some (sample_request, stored_weather)) as Hstored
    by reflexivity.
  assert (cache_match replay_world sample_request = Some stored_weather)
    as Hmatch by reflexivity.
  split; [exact Hstored|]. split; [exact Hmatch|].
  destruct (miss_then_hit APP_CONFIG sample_request sample_env ∅
              sample_world replay_world ∅ _ Hstored Hmatch)
    as (_ & _ & Hhit).
  assert (exit (fetch APP_CONFIG sample_request ∅ replay_world
                  (store_after (fetch APP_CONFIG sample_request sample_env
                                  sample_world ∅))) = CacheHit) as Hexit
    by reflexivity.
  split; [exact Hexit|].
  destruct (Hhit Hexit) as (_ & -> & _). reflexivity.
Defined.

End responses.

(* ===================================================================== *)
(** * Further properties of the upstream request *)
(* ===================================================================== *)

Section upstream_query.
Implicit Types (query clientQuery : list (string * string)).
Implicit Types (name value param : string).

(** The loop, read parameter by parameter: a listed parameter that the
    client sent with a value that is not empty takes that value; every
    other parameter is as before the loop. *)
Lemma copyParams_get allowedParams clientQuery name : ∀ query,
  searchParams_get name (copyParams allowedParams clientQuery query)
  = if decide (name ∈ allowedParams)
    then match searchParams_get name clientQuery with
         | Some value =>
             if decide (value = "") then searchParams_get name query
             else Some value
         | None => searchParams_get name query
         end
    else searchParams_get name query.
Proof.
  induction allowedParams as [|param allowedParams IH]; intros query.
  - by rewrite decide_False by apply not_elem_of_nil.
  - change (copyParams (param :: allowedParams) clientQuery query)
      with (copyParams allowedParams clientQuery
              match searchParams_get param clientQuery with
              | Some value =>
                  if decide (value = "") then query
                  else searchParams_set param value query
              | None => query
              end).
    rewrite IH. clear IH.
    destruct (decide (name = param)) as [->|Hne].
    + rewrite (decide_True (P := param ∈ param :: allowedParams))
        by apply list_elem_of_here.
      destruct (searchParams_get param clientQuery) as [value|];
        [|by case_decide].
      destruct (decide (value = "")); [by case_decide|].
      rewrite get_set_eq. by case_decide.
    + assert (searchParams_get name
                match searchParams_get param clientQuery with
                | Some value =>
                    if decide (value = "") then query
                    else searchParams_set param value query
                | None => query
                end = searchParams_get name query) as ->.
      { destruct (searchParams_get param clientQuery) as [value|]; [|done].
        case_decide; [done|]. by apply get_set_ne. }
      destruct (decide (name ∈ allowedParams)) as [Hin|Hout].
      * by rewrite decide_True by by apply list_elem_of_further.
      * rewrite decide_False; [done|].
        by intros [?|?]%elem_of_cons.
Qed.

Lemma filter_name_excluded name query :
  filter (λ nv : string * string, nv.1 = name)
    (filter (λ nv : string * string, nv.1 ≠ name) query) = [].
Proof.
  induction query as [|[n v] query IH]; [done|].
  rewrite (filter_cons (λ nv : string * string, nv.1 ≠ name)). simpl.
  case_decide; [|done]. rewrite filter_cons. simpl.
  by rewrite decide_False.
Qed.

Lemma filter_name_other name param query :
  name ≠ param →
  filter (λ nv : string * string, nv.1 = name)
    (filter (λ nv : string * string, nv.1 ≠ param) query)
  = filter (λ nv : string * string, nv.1 = name) query.
Proof.
  intros Hne. induction query as [|[n v] query IH]; [done|].
  rewrite (filter_cons (λ nv : string * string, nv.1 ≠ param)). simpl.
  rewrite (filter_cons (λ nv : string * string, nv.1 = name) (n, v)). simpl.
  destruct (decide (n = param)) as [->|Hn].
  - rewrite (decide_False (P := param ≠ param)) by (intros H; by apply H).
    rewrite decide_False by congruence. exact IH.
  - rewrite (decide_True (P := n ≠ param)) by done.
    rewrite filter_cons. simpl. by rewrite IH.
Qed.

(** [set] leaves exactly one pair with the name. *)
Lemma set_filter_eq name value query :
  filter (λ nv : string * string, nv.1 = name)
    (searchParams_set name value query) = [(name, value)].
Proof.
  induction query as [|[n v] query IH]; simpl.
  - rewrite filter_cons. simpl. by rewrite decide_True.
  - case_decide.
    + rewrite filter_cons. simpl. rewrite decide_True by done.
      by rewrite filter_name_excluded.
    + rewrite filter_cons. simpl. by rewrite decide_False.
Qed.

Lemma set_filter_ne name param value query :
  name ≠ param →
  filter (λ nv : string * string, nv.1 = name)
    (searchParams_set param value query)
  = filter (λ nv : string * string, nv.1 = name) query.
Proof.
  intros Hne. induction query as [|[n v] query IH]; simpl.
  - rewrite filter_cons. simpl. by rewrite decide_False by congruence.
  - case_decide.
    + subst n. rewrite !filter_cons. simpl.
      rewrite !decide_False by congruence. by apply filter_name_other.
    + rewrite !filter_cons. simpl. by rewrite IH.
Qed.

Lemma copyParams_single allowedParams clientQuery name : ∀ query,
  (∃ value, filter (λ nv : string * string, nv.1 = name) query
            = [(name, value)]) →
  ∃ value,
    filter (λ nv : string * string, nv.1 = name)
      (copyParams allowedParams clientQuery query) = [(name, value)].
Proof.
  unfold copyParams.
  induction allowedParams as [|param allowedParams IH]; intros query Hone;
    [done|].
  simpl. apply IH.
  destruct (searchParams_get param clientQuery) as [value'|]; [|done].
  case_decide; [done|].
  destruct (decide (name = param)) as [->|Hne].
  - rewrite set_filter_eq. eauto.
  - by rewrite set_filter_ne.
Qed.

(** X12.  The query of the upstream call of a GET API that lists [params].
    A listed parameter that the client sent with a value that is not empty
    is forwarded with that value (the first one, if the client repeated
    the parameter).  A listed parameter that the client left out or sent
    empty is not forwarded, and a name that is not listed is never taken
    from the client: both keep what the configured address has for them,
    [key] apart.  The outbound query has exactly one [key] pair, and the
    address itself is the configured one. *)
Theorem get_params_forwarded (api : ApiConfig) (secretValue : string)
    (url : URL) allowedParams :
  api_method api = "GET" →
  params api = Some allowedParams →
  let proxyUrl := proxyUrlOf api secretValue url in
  (∀ param value,
     param ∈ allowedParams →
     searchParams_get param (searchParams url) = Some value →
     value ≠ "" →
     searchParams_get param (searchParams proxyUrl) = Some value)
  ∧ (∀ param,
       param ≠ "key" →
       searchParams_get param (searchParams url) = None
       ∨ searchParams_get param (searchParams url) = Some "" →
       searchParams_get param (searchParams proxyUrl)
       = searchParams_get param (searchParams (api_url api)))
  ∧ (∀ name,
       name ∉ allowedParams → name ≠ "key" →
       searchParams_get name (searchParams proxyUrl)
       = searchParams_get name (searchParams (api_url api)))
  ∧ (∃ value,
       filter (λ nv : string * string, nv.1 = "key") (searchParams proxyUrl)
       = [("key", value)])
  ∧ endpoint proxyUrl = endpoint (api_url api)
  ∧ pathname proxyUrl = pathname (api_url api).
Proof.
  intros Hget Hparams proxyUrl. subst proxyUrl. unfold proxyUrlOf.
  rewrite decide_True by done. rewrite Hparams. simpl.
  split_and!; try done.
  - intros param value Hin Hclient Hne. rewrite copyParams_get.
    rewrite decide_True by done. rewrite Hclient. by rewrite decide_False.
  - intros param Hkey Hclient. rewrite copyParams_get.
    rewrite get_set_ne by done.
    case_decide; [|done].
    destruct Hclient as [-> | ->]; [done|]. by rewrite decide_True.
  - intros name Hout Hkey. rewrite copyParams_get.
    rewrite decide_False by done. by apply get_set_ne.
  - apply copyParams_single. rewrite set_filter_eq. eauto.
Qed.

(** The statement applied to the weather API and a query that repeats the
    listed parameter and brings an unlisted one. *)
Lemma get_params_forwarded_witness :
  api_method weather_api = "GET"
  ∧ params weather_api = Some ["q"]
  ∧ searchParams_get "q"
      (searchParams (proxyUrlOf weather_api "w-secret" repeated_url))
    = Some "London"
  ∧ searchParams_get "units"
      (searchParams (proxyUrlOf weather_api "w-secret" repeated_url))
    = None.
Proof.
  split; [reflexivity|]. split; [reflexivity|].
  destruct (get_params_forwarded weather_api "w-secret" repeated_url ["q"]
              eq_refl eq_refl) as (Hlisted & _ & Hunlisted & _).
  split.
  - apply Hlisted; [apply list_elem_of_here|reflexivity|discriminate].
  - rewrite Hunlisted; [reflexivity| |discriminate].
    by intros [=]%list_elem_of_singleton.
Defined.

End upstream_query.

Section upstream_secret.
Implicit Types (config : list (string * AppConfig)) (request : Request).
Implicit Types (env : gmap string string) (w : World).
Implicit Types (initial : gmap string RateLimitData).

(** Whether the upstream request can be built, and the error if it cannot,
    does not depend on the secret. *)
Lemma proxyRequestOf_secret (api : ApiConfig) (s1 s2 : string) request :
  match proxyRequestOf api s1 request with
  | inl error => proxyRequestOf api s2 request = inl error
  | inr _ => ∃ proxyRequest, proxyRequestOf api s2 request = inr proxyRequest
  end.
Proof.
  unfold proxyRequestOf, proxyBodyOf.
  case_decide; [|by eauto].
  destruct (bodyFields api) as [allowedFields|]; [|by eauto].
  destruct (copyFields allowedFields (clientBodyOf request) []);
    [done|by eauto].
Qed.

(** X13.  The secret reaches the client only through the upstream server.
    Take a request that passed the stages before secret resolution, and
    two secret stores that both hold a non-empty secret for the API.  If
    the upstream server answers the two upstream requests alike, the
    handler gives the same response, leaves the same store and hands the
    same response to the cache: nothing the handler itself adds to a
    response depends on the secret. *)
Theorem secret_reaches_upstream_only config request env1 env2 w initial
    pass (s1 s2 : string) :
  method request ≠ "OPTIONS" →
  validate config request w initial = inr pass →
  env1 !! secret (apiConfig pass) = Some s1 → s1 ≠ "" →
  env2 !! secret (apiConfig pass) = Some s2 → s2 ≠ "" →
  (∀ p1 p2,
     proxyRequestOf (apiConfig pass) s1 request = inr p1 →
     proxyRequestOf (apiConfig pass) s2 request = inr p2 →
     upstream w p1 = upstream w p2) →
  let outcome1 := fetch config request env1 w initial in
  let outcome2 := fetch config request env2 w initial in
  response outcome1 = response outcome2
  ∧ exit outcome1 = exit outcome2
  ∧ store_after outcome1 = store_after outcome2
  ∧ stored outcome1 = stored outcome2.
Proof.
  intros Hmethod Hv Henv1 Hs1 Henv2 Hs2 Hup outcome1 outcome2.
  subst outcome1 outcome2.
  rewrite !(fetch_pass _ _ _ _ _ _ Hmethod Hv). unfold forward.
  rewrite Henv1, Henv2. rewrite !decide_False by done.
  pose proof (proxyRequestOf_secret (apiConfig pass) s1 s2 request) as Hbuild.
  destruct (proxyRequestOf (apiConfig pass) s1 request)
    as [error|p1] eqn:Hp1.
  - by rewrite Hbuild.
  - destruct Hbuild as [p2 Hp2]. rewrite Hp2.
    rewrite (Hup p1 p2 eq_refl Hp2).
    destruct (upstream w p2) as [apiResponse|fetchError]; [done|].
    by case_decide.
Qed.

(** The statement applied to the sample request and two different secrets,
    with an upstream server that answers every request alike. *)
Lemma secret_reaches_upstream_only_witness :
  method sample_request ≠ "OPTIONS"
  ∧ sample_env !! "MYBLOG_WEATHER_KEY" = Some "w-secret"
  ∧ rotated_env !! "MYBLOG_WEATHER_KEY" = Some "w-secret-2"
  ∧ response (fetch APP_CONFIG sample_request sample_env sample_world ∅)
    = response (fetch APP_CONFIG sample_request rotated_env sample_world ∅).
Proof.
  assert (method sample_request ≠ "OPTIONS") as Hmethod by discriminate.
  split; [exact Hmethod|]. split; [reflexivity|]. split; [reflexivity|].
  pose proof (secret_reaches_upstream_only APP_CONFIG sample_request
                sample_env rotated_env sample_world ∅ _ "w-secret"
                "w-secret-2" Hmethod eq_refl eq_refl ltac:(discriminate)
                eq_refl ltac:(discriminate)) as Hsame.
  apply Hsame. reflexivity.
Defined.



End upstream_secret.

(* ===================================================================== *)
(** * Properties of the configuration utilities *)
(* ===================================================================== *)

Section config_utilities.
Context {A : Type}.
Implicit Types (obj : list (string * A)) (name : string).

Lemma property_after_set name name' (x : A) obj :
  property name (property_set name' x obj)
  = if decide (name = name') then Some x else property name obj.
Proof.
  induction obj as [|[k v] obj IH]; simpl.
  - destruct (decide (name = name')) as [->|Hne].
    + by rewrite decide_True.
    + by rewrite decide_False by congruence.
  - destruct (decide (k = name')) as [->|Hk]; simpl.
    + destruct (decide (name = name')) as [->|Hne].
      * by rewrite decide_True.
      * by rewrite !decide_False by congruence.
    + destruct (decide (k = name)) as [->|Hkn].
      * by rewrite decide_False by congruence.
      * exact IH.
Qed.

Lemma keys_after_set name (x : A) obj :
  keys (property_set name x obj)
  = if decide (name ∈ keys obj) then keys obj else keys obj ++ [name].
Proof.
  unfold keys. induction obj as [|[k v] obj IH].
  - case_decide as Hin; [by apply elem_of_nil in Hin|done].
  - cbn [property_set]. rewrite fmap_cons. cbn [fst].
    destruct (decide (k = name)) as [->|Hne]; rewrite ?fmap_cons; cbn [fst].
    + by rewrite decide_True by apply list_elem_of_here.
    + rewrite IH. destruct (decide (name ∈ obj.*1)) as [Hin|Hout].
      * by rewrite decide_True by by apply list_elem_of_further.
      * rewrite decide_False; [done|].
        intros [?|?]%elem_of_cons; congruence.
Qed.

Lemma property_after_delete name name' obj :
  property name (filter (λ entry : string * A, entry.1 ≠ name') obj)
  = if decide (name = name') then None else property name obj.
Proof.
  induction obj as [|[k v] obj IH]; [by case_decide|].
  rewrite filter_cons. simpl.
  destruct (decide (k = name')) as [->|Hk].
  - rewrite (decide_False (P := name' ≠ name')) by (intros H; by apply H).
    rewrite IH. destruct (decide (name = name')) as [->|Hne]; [done|].
    by rewrite decide_False by congruence.
  - rewrite (decide_True (P := k ≠ name')) by done. simpl.
    destruct (decide (k = name)) as [->|Hkn]; [|exact IH].
    by rewrite decide_False by congruence.
Qed.

Lemma keys_after_delete name obj :
  keys (filter (λ entry : string * A, entry.1 ≠ name) obj)
  = filter (λ k, k ≠ name) (keys obj).
Proof.
  unfold keys. induction obj as [|[k v] obj IH]; [done|].
  rewrite fmap_cons, !filter_cons. simpl.
  case_decide; [by rewrite fmap_cons, IH|exact IH].
Qed.

End config_utilities.

Section config_objects.
Context {A : Type}.
Implicit Types (obj : list (string * A)) (name : string).

Lemma arrayIndex_name name index :
  arrayIndex name = Some index → pretty index = name.
Proof.
  unfold arrayIndex. destruct (digits name 0) as [n|]; [|done].
  case_decide as Hcanonical; [|done]. intros [= <-]. by destruct Hcanonical.
Qed.

Lemma property_absent name obj : name ∉ keys obj → property name obj = None.
Proof.
  unfold keys. induction obj as [|[k v] obj IH]; [done|].
  rewrite fmap_cons. cbn [fst property].
  intros [Hne Hout]%not_elem_of_cons.
  rewrite decide_False by congruence. by apply IH.
Qed.

Lemma property_after_append name name' (x : A) obj :
  name' ∉ keys obj →
  property name (obj ++ [(name', x)])
  = if decide (name = name') then Some x else property name obj.
Proof.
  unfold keys. induction obj as [|[k v] obj IH]; simpl.
  - intros _. destruct (decide (name = name')) as [->|Hne].
    + by rewrite decide_True.
    + by rewrite decide_False by congruence.
  - intros [Hne Hout]%not_elem_of_cons.
    destruct (decide (k = name)) as [->|Hk].
    + by rewrite decide_False by congruence.
    + by apply IH.
Qed.

Lemma property_after_add name name' index (x : A) obj :
  arrayIndex name' = Some index →
  property name (property_add index name' x obj)
  = if decide (name = name') then Some x else property name obj.
Proof.
  intros Hindex.
  assert (∀ tail : list (string * A),
            property name ((name', x) :: tail)
            = if decide (name = name') then Some x else property name tail)
    as Hhead.
  { intros tail. simpl. destruct (decide (name = name')) as [->|Hne].
    - by rewrite decide_True.
    - by rewrite decide_False by congruence. }
  induction obj as [|[k v] obj IH]; [apply Hhead|].
  cbn [property_add].
  destruct (arrayIndex k) as [j|] eqn:Hk; [|apply Hhead].
  destruct (decide (j < index)%N) as [Hlt|_]; [|apply Hhead].
  cbn [property]. rewrite IH.
  destruct (decide (k = name)) as [->|Hkn]; [|done].
  rewrite decide_False; [done|]. intros ->.
  rewrite Hindex in Hk. injection Hk as ->. lia.
Qed.

Lemma property_after_define name name' (x : A) obj :
  property name (property_define name' x obj)
  = if decide (name = name') then Some x else property name obj.
Proof.
  unfold property_define. case_decide as Hin.
  - apply property_after_set.
  - destruct (arrayIndex name') as [index|] eqn:Hindex.
    + by apply property_after_add.
    + by apply property_after_append.
Qed.

Lemma keys_after_add name index (x : A) obj :
  arrayIndex name = Some index →
  name ∉ keys obj →
  ∃ before after,
    keys obj = before ++ after
    ∧ keys (property_add index name x obj) = before ++ name :: after
    ∧ Forall (λ k, ∃ j, arrayIndex k = Some j ∧ (j < index)%N) before
    ∧ ∀ k rest j, after = k :: rest → arrayIndex k = Some j →
                  (index < j)%N.
Proof.
  intros Hindex. unfold keys.
  induction obj as [|[k v] obj IH]; intros Hout.
  - exists [], []. split_and!; [done..|by constructor|done].
  - rewrite fmap_cons in Hout. cbn [fst] in Hout.
    apply not_elem_of_cons in Hout as [Hne Hout].
    cbn [property_add].
    destruct (arrayIndex k) as [j|] eqn:Hk.
    + case_decide as Hlt.
      * destruct (IH Hout) as (before & after & Hkeys & Hadded & Hbefore
                                & Hafter).
        exists (k :: before), after. rewrite !fmap_cons. cbn [fst].
        rewrite Hkeys, Hadded. split_and!; [done..| |done].
        constructor; [by eauto|done].
      * exists [], (k :: obj.*1). split_and!; [done..|by constructor|].
        intros k' rest j' [= <- <-] Hk'. rewrite Hk in Hk'.
        injection Hk' as <-.
        assert (j ≠ index); [|lia]. intros ->.
        apply arrayIndex_name in Hindex, Hk. congruence.
    + exists [], (k :: obj.*1). split_and!; [done..|by constructor|].
      intros k' rest j' [= <- <-] Hk'. congruence.
Qed.

Lemma delete_absent name obj :
  name ∉ keys obj →
  filter (λ entry : string * A, entry.1 ≠ name) obj = obj.
Proof.
  unfold keys. induction obj as [|[k v] obj IH]; [done|].
  rewrite fmap_cons. cbn [fst]. intros [Hne Hout]%not_elem_of_cons.
  rewrite filter_cons. simpl. rewrite decide_True by congruence.
  by rewrite IH.
Qed.

Lemma delete_after_define name (x : A) obj :
  name ∉ keys obj →
  filter (λ entry : string * A, entry.1 ≠ name) (property_define name x obj)
  = obj.
Proof.
  intros Hout. unfold property_define. rewrite decide_False by done.
  assert (∀ tail : list (string * A),
            name ∉ keys tail →
            filter (λ entry : string * A, entry.1 ≠ name)
              ((name, x) :: tail) = tail) as Hhead.
  { intros tail Htail. rewrite filter_cons. simpl.
    rewrite decide_False by (intros H; by apply H).
    by apply delete_absent. }
  destruct (arrayIndex name) as [index|].
  - revert Hout. unfold keys.
    induction obj as [|[k v] obj IH]; intros Hout.
    + by apply Hhead.
    + cbn [property_add].
      destruct (arrayIndex k) as [j|]; [|by apply Hhead].
      case_decide; [|by apply Hhead].
      rewrite fmap_cons in Hout. cbn [fst] in Hout.
      apply not_elem_of_cons in Hout as [Hne Hout].
      rewrite filter_cons. simpl. rewrite decide_True by congruence.
      by rewrite IH.
  - rewrite filter_app, delete_absent by done.
    rewrite filter_cons. simpl.
    rewrite decide_False by (intros H; by apply H).
    by rewrite app_nil_r.
Qed.

End config_objects.

Section config_apps.
Implicit Types (config : option (list (string * AppConfig))).
Implicit Types (appName other : string) (appConfig : AppConfig).

(** X15.  [setApp] followed by [getApp] and [listApps].  The app that was
    set is found with the configuration given; every other name finds what
    it finds in a copy of the configuration, so for a missing configuration
    what it finds in an empty object: an inherited member or nothing.  A
    name that was listed leaves the list of apps as it was.  A new name
    that is no array index comes last.  A new name that is an array index
    comes after the array indices below it and before every other name. *)
Theorem setApp_getApp config appName appConfig :
  getApp (Some (setApp config appName appConfig)) appName
  = Some (Own appConfig)
  ∧ (∀ other, other ≠ appName →
       getApp (Some (setApp config appName appConfig)) other
       = getApp (Some (default [] config)) other)
  ∧ (appName ∈ listApps config →
       listApps (Some (setApp config appName appConfig)) = listApps config)
  ∧ (appName ∉ listApps config → arrayIndex appName = None →
       listApps (Some (setApp config appName appConfig))
       = listApps config ++ [appName])
  ∧ (∀ index,
       appName ∉ listApps config → arrayIndex appName = Some index →
       ∃ before after,
         listApps config = before ++ after
         ∧ listApps (Some (setApp config appName appConfig))
           = before ++ appName :: after
         ∧ Forall (λ k, ∃ j, arrayIndex k = Some j ∧ (j < index)%N) before
         ∧ ∀ k rest j, after = k :: rest → arrayIndex k = Some j →
                       (index < j)%N).
Proof.
  assert (listApps config = keys (default [] config)) as Hkeys
    by by destruct config.
  unfold getApp, setApp. rewrite Hkeys. cbn [listApps]. split_and!.
  - rewrite property_after_define. by rewrite decide_True.
  - intros other Hne. rewrite property_after_define.
    by rewrite decide_False.
  - intros Hin. unfold property_define. rewrite decide_True by done.
    rewrite keys_after_set. by rewrite decide_True.
  - intros Hout Hindex. unfold property_define.
    rewrite decide_False by done. rewrite Hindex.
    unfold keys. by rewrite fmap_app.
  - intros index Hout Hindex. unfold property_define.
    rewrite decide_False by done. rewrite Hindex.
    by apply keys_after_add.
Qed.

(** The statement applied to the configuration of the Worker and the new
    name [1], and to a missing configuration. *)
Lemma setApp_getApp_witness :
  listApps (Some (setApp (Some APP_CONFIG) "1" shop_app))
  = ["1"; "myblog"; "myshop"]
  ∧ getApp (Some (setApp None "a" shop_app)) "constructor"
    = Some (Inherited "constructor")
  ∧ getApp None "constructor" = None.
Proof.
  split_and!; [|by vm_compute..].
  destruct (setApp_getApp (Some APP_CONFIG) "1" shop_app)
    as (_ & _ & _ & _ & Hplace).
  destruct (Hplace 1%N) as (before & after & Hkeys & -> & Hbefore & _).
  - change ("1" ∉ ["myblog"; "myshop"]).
    rewrite !not_elem_of_cons. split_and!; try discriminate.
    apply not_elem_of_nil.
  - by vm_compute.
  - destruct before as [|k before].
    + simpl in Hkeys. by rewrite <- Hkeys.
    + exfalso. change (["myblog"; "myshop"] = k :: before ++ after) in Hkeys.
      injection Hkeys as <- _.
      apply Forall_cons in Hbefore as [(j & Hj & _) _]. by vm_compute in Hj.
Defined.

(** X16.  [removeApp].  The name that was removed finds no app any more:
    it finds the inherited member when it is the name of a member of
    [Object.prototype], and nothing otherwise.  Every other name finds what
    it finds in a copy of the configuration, and the other apps are listed
    in the same order.  Removing an app that was just added to a
    configuration that did not have it gives a copy of that
    configuration. *)
Theorem removeApp_getApp config appName :
  getApp (Some (removeApp config appName)) appName
  = (if decide (appName ∈ object_prototype)
     then Some (Inherited appName) else None)
  ∧ (∀ other, other ≠ appName →
       getApp (Some (removeApp config appName)) other
       = getApp (Some (default [] config)) other)
  ∧ listApps (Some (removeApp config appName))
    = filter (λ name, name ≠ appName) (listApps config)
  ∧ (∀ appConfig,
       appName ∉ listApps config →
       removeApp (Some (setApp config appName appConfig)) appName
       = default [] config).
Proof.
  assert (listApps config = keys (default [] config)) as Hkeys
    by by destruct config.
  unfold getApp, removeApp, setApp. rewrite Hkeys. cbn [listApps].
  split_and!.
  - rewrite property_after_delete. by rewrite decide_True.
  - intros other Hne. rewrite property_after_delete.
    by rewrite decide_False.
  - apply keys_after_delete.
  - intros appConfig Hout. simpl. by apply delete_after_define.
Qed.

(** The statement applied to the configuration of the Worker: after the
    blog is removed the shop is the one app, and a name of
    [Object.prototype] still finds the inherited member once removed. *)
Lemma removeApp_getApp_witness :
  listApps (Some (removeApp (Some APP_CONFIG) "myblog")) = ["myshop"]
  ∧ getApp (Some (removeApp (Some APP_CONFIG) "constructor")) "constructor"
    = Some (Inherited "constructor").
Proof.
  split.
  - destruct (removeApp_getApp (Some APP_CONFIG) "myblog")
      as (_ & _ & -> & _). reflexivity.
  - destruct (removeApp_getApp (Some APP_CONFIG) "constructor")
      as (-> & _). reflexivity.
Defined.

End config_apps.
